(** * x-tracker: the change-detection and event-recording pipeline

    A shallow embedding of the Go packages [internal/db] (the SQLite
    store), [internal/api] (the paginating client), [internal/webhook]
    (the notification manager and its two channels) and of the two
    orchestration paths of [internal/ui] ([handleAddAccount] and
    [CheckAccounts]), followed by the properties of the pipeline.

    Modelling conventions.
    - A Go [map[string]bool] that only ever stores [true] is a
      [gset string]; [m[id]] is membership.
    - The [following] table (primary key on the pair, WITHOUT ROWID) is a
      [gset (Z * string)]; [watched_accounts] and [follow_events] are row
      lists in insertion order.
    - [for id := range m] visits the keys of a map in an order Go leaves
      unspecified: the order is a parameter ([MapOrder]).  Go may pick
      another order at every loop; a statement that compares two calls
      takes one order per call.
    - A Go [error] result is [option error] ([None] is [nil]); a
      [(T, error)] result is [result T].
    - Storage failures are injected: every call of a store method takes a
      [fault], the index of the database operation of that call that
      fails (if any).  [time.Now()] is an argument. *)

From stdpp Require Import gmap strings list sets sorting pretty.
From Stdlib Require Import ZArith Ascii.

Open Scope Z_scope.

(** ** Go results and errors *)

Definition error : Type := string.

Inductive result (A : Type) : Type :=
| Ok (a : A)
| Err (e : error).
Arguments Ok {A} a.
Arguments Err {A} e.

(** ** Iteration order of Go maps *)

Class MapOrder : Type := {
  range : gset string → list string;
  range_perm : ∀ s, range s ≡ₚ elements s
}.

#[global] Instance elements_order : MapOrder :=
  {| range := elements; range_perm := λ s, reflexivity (elements s) |}.

(** ** Fault injection and transactions *)

(** [Some k]: the [k]-th database operation of the call fails. *)
Definition fault : Type := option nat.

Definition fails (f : fault) (k : nat) : bool := bool_decide (f = Some k).

Module db.

(** *** models.go *)

Record WatchedAccount : Type := {
  ID : Z;
  Username : string;
  UserID : string
}.

Inductive EventType : Type := EventTypeFollow | EventTypeUnfollow.

Record FollowEvent : Type := {
  ev_ID : Z;
  ev_WatchedAccountID : Z;
  ev_UserID : string;
  ev_EventType : EventType;
  ev_DetectedAt : Z
}.

(** *** The three relations of [schema] *)

Record Database : Type := {
  watched_accounts : list WatchedAccount;
  following : gset (Z * string);
  follow_events : list FollowEvent
}.

#[global] Instance WatchedAccount_eq_dec : EqDecision WatchedAccount.
Proof. solve_decision. Defined.
#[global] Instance EventType_eq_dec : EqDecision EventType.
Proof. solve_decision. Defined.
#[global] Instance FollowEvent_eq_dec : EqDecision FollowEvent.
Proof. solve_decision. Defined.
#[global] Instance Database_eq_dec : EqDecision Database.
Proof. solve_decision. Defined.

(** *** SQL statements *)

(** [INTEGER PRIMARY KEY] without AUTOINCREMENT: one more than the largest
    key in use, 1 in an empty table. *)
Definition next_rowid (ids : list Z) : Z := 1 + foldr Z.max 0 ids.

(** [INSERT INTO watched_accounts (username, user_id) VALUES (?, ?)];
    the UNIQUE constraint on [username] is checked by the caller. *)
Definition insert_account (username user_id : string) (s : Database) : Database :=
  {| watched_accounts :=
       watched_accounts s ++
       [{| ID := next_rowid (ID <$> watched_accounts s);
           Username := username; UserID := user_id |}];
     following := following s;
     follow_events := follow_events s |}.

(** [DELETE FROM following WHERE watched_account_id = ?] *)
Definition delete_followings_of (id : Z) (s : Database) : Database :=
  {| watched_accounts := watched_accounts s;
     following := filter (λ p, p.1 ≠ id) (following s);
     follow_events := follow_events s |}.

(** [DELETE FROM watched_accounts WHERE id = ?].  The schema declares
    foreign keys to this table, but SQLite enforces them only on a
    connection that switches them on, and [NewDatabase] opens the plain
    path: rows of [follow_events] that name the account do not stop the
    statement. *)
Definition delete_account (id : Z) (s : Database) : Database :=
  {| watched_accounts := filter (λ a, ID a ≠ id) (watched_accounts s);
     following := following s;
     follow_events := follow_events s |}.

(** [DELETE FROM following WHERE watched_account_id = ? AND followed_user_id = ?] *)
Definition delete_following (acc : Z) (id : string) (s : Database) : Database :=
  {| watched_accounts := watched_accounts s;
     following := following s ∖ {[ (acc, id) ]};
     follow_events := follow_events s |}.

(** [INSERT OR IGNORE INTO following (watched_account_id, followed_user_id)] *)
Definition insert_following (acc : Z) (id : string) (s : Database) : Database :=
  {| watched_accounts := watched_accounts s;
     following := {[ (acc, id) ]} ∪ following s;
     follow_events := follow_events s |}.

(** [INSERT INTO follow_events (watched_account_id, user_id, event_type, detected_at)] *)
Definition insert_event (acc : Z) (ty : EventType) (now : Z) (id : string)
    (s : Database) : Database :=
  {| watched_accounts := watched_accounts s;
     following := following s;
     follow_events :=
       follow_events s ++
       [{| ev_ID := next_rowid (ev_ID <$> follow_events s);
           ev_WatchedAccountID := acc; ev_UserID := id;
           ev_EventType := ty; ev_DetectedAt := now |}] |}.

(** [SELECT followed_user_id FROM following WHERE watched_account_id = ?] *)
Definition select_followings (acc : Z) (s : Database) : gset string :=
  set_map snd (filter (λ p : Z * string, p.1 = acc) (following s)).

(** *** Transactions

    A transaction body runs on a working copy of the store and counts the
    operations it has issued; [Begin] is operation 0.  An error anywhere
    leaves the function through the deferred [tx.Rollback()], which
    discards the working copy; so does a failed [Commit]. *)

Definition Tx (A : Type) : Type := nat → Database → result (A * (nat * Database)).

#[global] Instance tx_ret : MRet Tx := λ A a k s, Ok (a, (k, s)).

#[global] Instance tx_bind : MBind Tx := λ A B g m k s,
  match m k s with
  | Ok (a, (k', s')) => g a k' s'
  | Err e => Err e
  end.

(** One statement: fails with [msg] when it is the faulty operation. *)
Definition exec (f : fault) (msg : error) (stmt : Database → Database) : Tx unit :=
  λ k s, if fails f k then Err msg else Ok (tt, (S k, stmt s)).

(** One query: reads the working copy. *)
Definition query {A} (f : fault) (msg : error) (q : Database → A) : Tx A :=
  λ k s, if fails f k then Err msg else Ok (q s, (S k, s)).

(** [for _, x := range l { if err := body(x); err != nil { return err } }] *)
Fixpoint for_each {A} (l : list A) (body : A → Tx unit) : Tx unit :=
  match l with
  | [] => mret tt
  | x :: l' => body x ;; for_each l' body
  end.

Definition when (b : bool) (m : Tx unit) : Tx unit := if b then m else mret tt.

(** [tx, err := d.db.Begin(); defer tx.Rollback(); ...; tx.Commit()] *)
Definition transaction (f : fault) (begin_msg commit_msg : error)
    (body : Tx unit) (s : Database) : Database * option error :=
  if fails f 0 then (s, Some begin_msg)
  else match body 1%nat s with
       | Err e => (s, Some e)
       | Ok (_, (k, s')) =>
           if fails f k then (s, Some commit_msg) else (s', None)
       end.

(** The store after a loop of guarded statements that all succeeded. *)
Definition run_stmts {A} (cond : A → bool) (stmt : A → Database → Database)
    (l : list A) (s : Database) : Database :=
  foldl (λ s x, if cond x then stmt x s else s) s l.

(** An event without its row id. *)
Definition event_key (e : FollowEvent) : Z * string * EventType * Z :=
  (ev_WatchedAccountID e, ev_UserID e, ev_EventType e, ev_DetectedAt e).

(** The events of one account, in log order. *)
Definition event_keys_of (acc : Z) (s : Database) : list (Z * string * EventType * Z) :=
  filter (λ k, k.1.1.1 = acc) (event_key <$> follow_events s).

(** The events of a delta: one Follow per added ID, then one Unfollow per
    removed ID, all stamped [now]. *)
Definition delta_keys (acc : Z) (now : Z) (added removed : list string)
    : list (Z * string * EventType * Z) :=
  ((λ id, (acc, id, EventTypeFollow, now)) <$> added)
  ++ ((λ id, (acc, id, EventTypeUnfollow, now)) <$> removed).

Section store.
Context `{MapOrder}.

(** *** AddWatchedAccount *)
Definition AddWatchedAccount (f : fault) (s : Database) (username user_id : string)
    : Database * result WatchedAccount :=
  if fails f 0 then (s, Err "exec")
  else if bool_decide (username ∈ Username <$> watched_accounts s)
  then (s, Err "UNIQUE constraint failed: watched_accounts.username")
  else
    let s' := insert_account username user_id s in
    (s', Ok {| ID := next_rowid (ID <$> watched_accounts s);
               Username := username; UserID := user_id |}).

(** *** GetWatchedAccounts *)
Definition GetWatchedAccounts (f : fault) (s : Database) : result (list WatchedAccount) :=
  if fails f 0 then Err "query" else Ok (watched_accounts s).

(** *** RemoveWatchedAccount *)
Definition RemoveWatchedAccount (f : fault) (s : Database) (id : Z)
    : Database * option error :=
  transaction f "begin" "commit"
    (exec f "delete following" (delete_followings_of id) ;;
     exec f "delete watched_accounts" (delete_account id)) s.

(** *** GetCurrentFollowings ([rows.Scan] of a TEXT column into a string
    is taken to succeed) *)
Definition GetCurrentFollowings (f : fault) (s : Database) (watchedAccountID : Z)
    : result (gset string) :=
  if fails f 0 then Err "query" else Ok (select_followings watchedAccountID s).

(** *** StoreFollowings

    [d.GetCurrentFollowings] is called on [d.db], not on [tx]; no
    statement of the transaction has run yet, so it reads the same rows.
    It is operation 1 of the call. *)
Definition StoreFollowings (f : fault) (s : Database) (watchedAccountID : Z)
    (followingIDs : list string) : Database * option error :=
  transaction f "beginning transaction" "committing transaction"
    (currentFollowings ←
       query f "getting current followings" (select_followings watchedAccountID) ;
     let newFollowingsMap : gset string := list_to_set followingIDs in
     for_each (range currentFollowings) (λ id,
       when (bool_decide (id ∉ newFollowingsMap))
         (exec f "deleting unfollow" (delete_following watchedAccountID id))) ;;
     exec f "preparing statement" (λ s, s) ;;
     for_each followingIDs (λ id,
       when (bool_decide (id ∉ currentFollowings))
         (exec f "inserting new follow" (insert_following watchedAccountID id)))) s.

(** *** StoreFollowEvents *)
Definition StoreFollowEvents (f : fault) (s : Database) (watchedAccountID : Z)
    (follows unfollows : list string) (now : Z) : Database * option error :=
  transaction f "beginning transaction" "committing transaction"
    (exec f "preparing statement" (λ s, s) ;;
     for_each follows (λ userID,
       exec f "inserting follow event"
         (insert_event watchedAccountID EventTypeFollow now userID)) ;;
     for_each unfollows (λ userID,
       exec f "inserting unfollow event"
         (insert_event watchedAccountID EventTypeUnfollow now userID))) s.

(** *** Change detection (the two loops shared by [ProcessFollowingChanges]
    and [ui.CheckAccounts]) *)

(** [for _, id := range ids { newFollowingsMap[id] = true;
      if !currentFollowings[id] { newFollows = append(newFollows, id) } }] *)
Definition findNewFollows (currentFollowings : gset string) (ids : list string)
    : gset string * list string :=
  foldl (λ '(newFollowingsMap, newFollows) id,
           ({[ id ]} ∪ newFollowingsMap,
            if bool_decide (id ∈ currentFollowings) then newFollows
            else newFollows ++ [id]))
        (∅, []) ids.

(** [for id := range currentFollowings {
      if !newFollowingsMap[id] { unfollows = append(unfollows, id) } }] *)
Definition findUnfollows (currentFollowings newFollowingsMap : gset string)
    : list string :=
  foldl (λ unfollows id,
           if bool_decide (id ∈ newFollowingsMap) then unfollows
           else unfollows ++ [id])
        [] (range currentFollowings).

Definition detectChanges (currentFollowings : gset string) (ids : list string)
    : list string * list string :=
  let '(newFollowingsMap, newFollows) := findNewFollows currentFollowings ids in
  (newFollows, findUnfollows currentFollowings newFollowingsMap).

(** [len(newFollows) > 0 || len(unfollows) > 0] *)
Definition hasChanges (newFollows unfollows : list string) : bool :=
  bool_decide (0 < length newFollows)%nat || bool_decide (0 < length unfollows)%nat.

(** *** ProcessFollowingChanges

    [fg], [fe], [fs]: the faults of its three store calls. *)
Definition ProcessFollowingChanges (fg fe fs : fault) (s : Database)
    (account : WatchedAccount) (newFollowingIDs : list string) (now : Z)
    : Database * option error :=
  match GetCurrentFollowings fg s (ID account) with
  | Err e => (s, Some ("getting current followings: " +:+ e))
  | Ok currentFollowings =>
      let '(newFollows, unfollows) := detectChanges currentFollowings newFollowingIDs in
      if hasChanges newFollows unfollows then
        match StoreFollowEvents fe s (ID account) newFollows unfollows now with
        | (s1, Some e) => (s1, Some ("storing follow events: " +:+ e))
        | (s1, None) =>
            match StoreFollowings fs s1 (ID account) newFollowingIDs with
            | (s2, Some e) => (s2, Some ("updating followings: " +:+ e))
            | (s2, None) => (s2, None)
            end
        end
      else (s, None)
  end.

End store.

End db.

(** ** internal/api: the upstream client *)

Module api.

Record UserResponse : Type := {
  RestID : string;
  ScreenName : string;
  FriendsCount : Z
}.

Record FollowingIDsResponse : Type := {
  IDs : list string;
  NextCursor : Z;
  NextCursorStr : string
}.

Record UserByIDResponse : Type := {
  by_ScreenName : string;
  by_FollowersCount : Z
}.

(** The [following-ids] endpoint as [doRequest] sees it: the decoded reply
    to a request for [userId] with the optional [cursor] parameter, or the
    error of a failed request. *)
Definition Upstream : Type := string → option string → result FollowingIDsResponse.

(** The [for { ... }] loop of [GetFollowingIDs]; [None] when [fuel] requests
    did not reach a page whose [next_cursor] is 0. *)
Fixpoint GetFollowingIDs_loop (fuel : nat) (up : Upstream) (userID : string)
    (allIDs : list string) (nextCursor : string)
    : option (result FollowingIDsResponse) :=
  match fuel with
  | O => None
  | S fuel' =>
      let cursor := if bool_decide (nextCursor ≠ "0") then Some nextCursor else None in
      match up userID cursor with
      | Err e => Some (Err ("sending request: " +:+ e))
      | Ok response =>
          let allIDs := allIDs ++ IDs response in
          if bool_decide (NextCursor response = 0)
          then Some (Ok {| IDs := allIDs; NextCursor := 0; NextCursorStr := "" |})
          else GetFollowingIDs_loop fuel' up userID allIDs (NextCursorStr response)
      end
  end.

Definition GetFollowingIDs (fuel : nat) (up : Upstream) (userID : string)
    : option (result FollowingIDsResponse) :=
  GetFollowingIDs_loop fuel up userID [] "0".

(** The pages the upstream serves for [userID] from a given cursor on: each
    page but the last carries a non-zero [next_cursor] and the cursor string
    under which the next page is served. *)
Inductive serves (up : Upstream) (userID : string)
    : string → list (list string) → Prop :=
| serves_last nextCursor r :
    up userID (if bool_decide (nextCursor ≠ "0") then Some nextCursor else None) = Ok r →
    NextCursor r = 0 →
    serves up userID nextCursor [IDs r]
| serves_more nextCursor r pages :
    up userID (if bool_decide (nextCursor ≠ "0") then Some nextCursor else None) = Ok r →
    NextCursor r ≠ 0 →
    serves up userID (NextCursorStr r) pages →
    serves up userID nextCursor (IDs r :: pages).

(** The client as the orchestration uses it: the outcome of each of its
    three calls ([GetFollowingIDs] having returned). *)
Record Client : Type := {
  GetUser : string → result UserResponse;
  FollowingIDs : string → result FollowingIDsResponse;
  GetUserByID : string → result UserByIDResponse
}.

(** The requests of [GetFollowingIDs] that end in a failed request, after
    any number of pages with a non-zero [next_cursor]. *)
Inductive breaks (up : Upstream) (userID : string) : string → error → Prop :=
| breaks_here nextCursor e :
    up userID (if bool_decide (nextCursor ≠ "0") then Some nextCursor else None) = Err e →
    breaks up userID nextCursor e
| breaks_later nextCursor r e :
    up userID (if bool_decide (nextCursor ≠ "0") then Some nextCursor else None) = Ok r →
    NextCursor r ≠ 0 →
    breaks up userID (NextCursorStr r) e →
    breaks up userID nextCursor e.

(** *** doRequest

    What [c.httpClient.Do] hands back: the status code, the value of the
    [x-ratelimit-requests-remaining] header ([Header.Get] gives the empty
    string when the header is absent) and the body. *)
Record Response : Type := {
  StatusCode : Z;
  RateLimitRemaining : string;
  Body : string
}.

(** The conversion [int32(count)] of a Go [int]. *)
Definition int32 (count : Z) : Z := (count + 2 ^ 31) `mod` 2 ^ 32 - 2 ^ 31.

Section request.
Context {A : Type}.
(** [strconv.Atoi] and the JSON decoder of the response type. *)
Variable Atoi : string → option Z.
Variable decode : string → result A.

(** The header check of [doRequest]: the new value of [c.remainingRequests]. *)
Definition storeRemaining (remainingRequests : Z) (resp : Response) : Z :=
  if bool_decide (RateLimitRemaining resp ≠ "") then
    match Atoi (RateLimitRemaining resp) with
    | Some count => int32 count
    | None => remainingRequests
    end
  else remainingRequests.

(** [doRequest] on the outcome of [c.httpClient.Do(req)]: the counter
    afterwards and the decoded value or the error. *)
Definition doRequest (remainingRequests : Z) (sent : result Response) : Z * result A :=
  match sent with
  | Err e => (remainingRequests, Err ("making request: " +:+ e))
  | Ok resp =>
      let remainingRequests := storeRemaining remainingRequests resp in
      if bool_decide (StatusCode resp ≠ 200)
      then (remainingRequests,
            Err ("API error: status=" +:+ pretty (StatusCode resp)
                 +:+ " body=" +:+ Body resp))
      else match decode (Body resp) with
           | Err e => (remainingRequests, Err ("decoding response: " +:+ e))
           | Ok v => (remainingRequests, Ok v)
           end
  end.

(** [RemainingRequests()] after a run of requests. *)
Definition RemainingRequests_after (remainingRequests : Z)
    (sents : list (result Response)) : Z :=
  foldl (λ c sent, (doRequest c sent).1) remainingRequests sents.

(** The counter value a response carries, if any. *)
Definition carried (sent : result Response) : option Z :=
  match sent with
  | Ok resp =>
      if bool_decide (RateLimitRemaining resp ≠ "")
      then int32 <$> Atoi (RateLimitRemaining resp) else None
  | Err _ => None
  end.

End request.

End api.

(** ** internal/webhook: the two channels and the notification manager *)

Module webhook.

Inductive Channel : Type := Discord | Telegram.

(** What a channel posts: the direction, the watched account, the number of
    changed IDs and at most 25 enumerated entries, each with the profile
    looked up for it (or the lookup's error: the bare ID is shown). *)
Record Message : Type := {
  msg_channel : Channel;
  msg_kind : db.EventType;
  msg_username : string;
  msg_count : nat;
  msg_fields : list (string * result api.UserByIDResponse)
}.

(** The outcome of the HTTP POST of a message. *)
Definition Post : Type := Message → option error.

Record DiscordWebhook : Type := { URL : string }.

Record TelegramWebhook : Type := { botToken : string; chatID : string }.

Definition fields (client : api.Client) (ids : list string)
    : list (string * result api.UserByIDResponse) :=
  (λ userID, (userID, api.GetUserByID client userID)) <$> take 25 ids.

Definition message (c : Channel) (kind : db.EventType) (client : api.Client)
    (account : db.WatchedAccount) (ids : list string) : Message :=
  {| msg_channel := c; msg_kind := kind;
     msg_username := db.Username account;
     msg_count := length ids;
     msg_fields := fields client ids |}.

(** A channel call returns the posts it attempted and its [error]. *)
Definition Discord_notify (kind : db.EventType) (d : DiscordWebhook) (post : Post)
    (client : api.Client) (account : db.WatchedAccount) (ids : list string)
    : list Message * option error :=
  if bool_decide (URL d = "") then ([], None)
  else let m := message Discord kind client account ids in ([m], post m).

Definition Telegram_notify (kind : db.EventType) (t : TelegramWebhook) (post : Post)
    (client : api.Client) (account : db.WatchedAccount) (ids : list string)
    : list Message * option error :=
  let m := message Telegram kind client account ids in
  if bool_decide (botToken t = "") || bool_decide (chatID t = "") then ([], None)
  else ([m], post m).

Record NotificationManager : Type := {
  discord : option DiscordWebhook;
  telegram : option TelegramWebhook;
  enableDiscord : bool;
  enableTelegram : bool
}.

Definition NewNotificationManager (discordURL telegramToken telegramChatID : string)
    (enableDiscord enableTelegram : bool) : NotificationManager :=
  {| discord :=
       if enableDiscord && bool_decide (discordURL ≠ "")
       then Some {| URL := discordURL |} else None;
     telegram :=
       if enableTelegram && bool_decide (telegramToken ≠ "")
          && bool_decide (telegramChatID ≠ "")
       then Some {| botToken := telegramToken; chatID := telegramChatID |} else None;
     enableDiscord := enableDiscord;
     enableTelegram := enableTelegram |}.

(** One [if m.config.enableX && m.x != nil { if err := ...; err != nil { log } }]
    block: the posts attempted and the line the block itself logs.  The
    lines the channel functions write to the log on their way are not
    part of the model. *)
Definition channel_block {W} (enabled : bool) (hook : option W)
    (notify : W → list Message * option error) (failure : string)
    : list Message * list string :=
  match enabled, hook with
  | true, Some w =>
      match notify w with
      | (ms, Some e) => (ms, [failure +:+ e])
      | (ms, None) => (ms, [])
      end
  | _, _ => ([], [])
  end.

(** [NotifyNewFollows] and [NotifyUnfollows] return nothing; the model
    returns the posts attempted and the failure lines the two blocks of
    the manager log. *)
Definition NotifyNewFollows (m : NotificationManager) (post : Post)
    (client : api.Client) (account : db.WatchedAccount) (follows : list string)
    : list Message * list string :=
  let '(ms1, log1) :=
    channel_block (enableDiscord m) (discord m)
      (λ d, Discord_notify db.EventTypeFollow d post client account follows)
      "Failed to send Discord follow notification: " in
  let '(ms2, log2) :=
    channel_block (enableTelegram m) (telegram m)
      (λ t, Telegram_notify db.EventTypeFollow t post client account follows)
      "Failed to send Telegram follow notification: " in
  (ms1 ++ ms2, log1 ++ log2).

Definition NotifyUnfollows (m : NotificationManager) (post : Post)
    (client : api.Client) (account : db.WatchedAccount) (unfollows : list string)
    : list Message * list string :=
  let '(ms1, log1) :=
    channel_block (enableDiscord m) (discord m)
      (λ d, Discord_notify db.EventTypeUnfollow d post client account unfollows)
      "Failed to send Discord unfollow notification: " in
  let '(ms2, log2) :=
    channel_block (enableTelegram m) (telegram m)
      (λ t, Telegram_notify db.EventTypeUnfollow t post client account unfollows)
      "Failed to send Telegram unfollow notification: " in
  (ms1 ++ ms2, log1 ++ log2).

(** The posts a configured manager attempts for one direction: Discord's,
    then Telegram's. *)
Definition attempts (kind : db.EventType) (m : NotificationManager)
    (client : api.Client) (account : db.WatchedAccount) (ids : list string)
    : list Message :=
  (match enableDiscord m, discord m with
   | true, Some d =>
       if bool_decide (URL d = "") then []
       else [message Discord kind client account ids]
   | _, _ => []
   end) ++
  (match enableTelegram m, telegram m with
   | true, Some t =>
       if bool_decide (botToken t = "") || bool_decide (chatID t = "") then []
       else [message Telegram kind client account ids]
   | _, _ => []
   end).

End webhook.

(** ** internal/ui: the add-account flow and the reconciliation cycle *)

Module ui.

(** The two notification switches of [config.Config]. *)
Record Config : Type := {
  EnableFollowNotifications : bool;
  EnableUnfollowNotifications : bool
}.

(** The faults of the three store calls made for one account in a cycle. *)
Record Faults : Type := {
  f_get : fault;
  f_events : fault;
  f_followings : fault
}.

Definition no_faults : Faults :=
  {| f_get := None; f_events := None; f_followings := None |}.

(** What a cycle acts on: the store and the posts attempted so far. *)
Record World : Type := {
  w_db : db.Database;
  w_sent : list webhook.Message
}.

(** What a cycle runs against: the fields of [Model] it reads, the outcome
    of every post, the faults of the store calls of each account (by
    account ID) and the clock read by [StoreFollowEvents]. *)
Record Env : Type := {
  api : api.Client;
  notifications : option webhook.NotificationManager;
  config : Config;
  post : webhook.Post;
  faults : Z → Faults;
  clock : Z → Z
}.

Definition with_post (env : Env) (post' : webhook.Post) : Env :=
  {| api := api env; notifications := notifications env; config := config env;
     post := post'; faults := faults env; clock := clock env |}.

(** [strings.TrimPrefix(username, "@")] *)
Definition TrimPrefix_at (username : string) : string :=
  match username with
  | String "@"%char rest => rest
  | _ => username
  end.

(** What the store and the outbox hold for one account: its snapshot, its
    events (without row ids) and the posts that name it. *)
Definition account_view (a : db.WatchedAccount) (w : World)
    : gset string * list (Z * string * db.EventType * Z) * list webhook.Message :=
  (db.select_followings (db.ID a) (w_db w),
   db.event_keys_of (db.ID a) (w_db w),
   filter (λ m, webhook.msg_username m = db.Username a) (w_sent w)).

Section orchestration.
Context `{MapOrder}.

(** *** handleAddAccount ([fa], [fs]: the faults of its two store calls) *)
Definition handleAddAccount (env : Env) (fa fs : fault) (w : World)
    (username : string) : World * option error :=
  let username := TrimPrefix_at username in
  match api.GetUser (api env) username with
  | Err e => (w, Some e)
  | Ok user =>
      match db.AddWatchedAccount fa (w_db w) (api.ScreenName user) (api.RestID user) with
      | (s1, Err e) => ({| w_db := s1; w_sent := w_sent w |}, Some e)
      | (s1, Ok account) =>
          match api.FollowingIDs (api env) (db.UserID account) with
          | Err e =>
              ({| w_db := s1; w_sent := w_sent w |},
               Some ("getting initial followings: " +:+ e))
          | Ok followings =>
              match db.StoreFollowings fs s1 (db.ID account) (api.IDs followings) with
              | (s2, Some e) =>
                  ({| w_db := s2; w_sent := w_sent w |},
                   Some ("storing initial followings: " +:+ e))
              | (s2, None) => ({| w_db := s2; w_sent := w_sent w |}, None)
              end
          end
      end
  end.

(** *** The notification block of [CheckAccounts] *)
Definition sendNotifications (env : Env) (account : db.WatchedAccount)
    (newFollows unfollows : list string) : list webhook.Message :=
  match notifications env with
  | None => []
  | Some m =>
      (if EnableFollowNotifications (config env)
          && bool_decide (0 < length newFollows)%nat
       then (webhook.NotifyNewFollows m (post env) (api env) account newFollows).1
       else []) ++
      (if EnableUnfollowNotifications (config env)
          && bool_decide (0 < length unfollows)%nat
       then (webhook.NotifyUnfollows m (post env) (api env) account unfollows).1
       else [])
  end.

(** *** The body of the [for _, account := range accounts] loop; every
    [continue] leaves with the world as it then is. *)
Definition checkAccount (env : Env) (w : World) (account : db.WatchedAccount) : World :=
  let fl := faults env (db.ID account) in
  match api.FollowingIDs (api env) (db.UserID account) with
  | Err _ => w
  | Ok followings =>
      match db.GetCurrentFollowings (f_get fl) (w_db w) (db.ID account) with
      | Err _ => w
      | Ok currentFollowings =>
          let '(newFollows, unfollows) :=
            db.detectChanges currentFollowings (api.IDs followings) in
          if db.hasChanges newFollows unfollows then
            match db.StoreFollowEvents (f_events fl) (w_db w) (db.ID account)
                    newFollows unfollows (clock env (db.ID account)) with
            | (s1, Some _) => {| w_db := s1; w_sent := w_sent w |}
            | (s1, None) =>
                match db.StoreFollowings (f_followings fl) s1 (db.ID account)
                        (api.IDs followings) with
                | (s2, Some _) => {| w_db := s2; w_sent := w_sent w |}
                | (s2, None) =>
                    {| w_db := s2;
                       w_sent := w_sent w ++
                                 sendNotifications env account newFollows unfollows |}
                end
            end
          else w
      end
  end.

(** *** CheckAccounts ([fl]: the fault of [GetWatchedAccounts]) *)
Definition CheckAccounts (env : Env) (fl : fault) (w : World) : World :=
  match db.GetWatchedAccounts fl (w_db w) with
  | Err _ => w
  | Ok accounts => foldl (checkAccount env) w accounts
  end.

End orchestration.

(** *** The terminal model: modes, messages and commands *)

Inductive Mode : Type := ModeNormal | ModeAddAccount | ModeListAccounts | ModeRemoveAccount.

(** The messages [Update] tells apart; [KeyMsg] carries [msg.String()],
    [otherMsg] stands for every message of the [default] branch. *)
Inductive Msg : Type :=
| KeyMsg (key : string)
| checkTimerMsg
| tickMsg
| errMsg (e : error)
| otherMsg.

Inductive Cmd : Type :=
| Quit
| Blink
| HandleAddAccount (input : string)
| HandleRemoveByUsername (input : string)
| CheckAccountsCmd
| TickCheckTimer
| TickUptime
| SpinnerCmd
| TextInputCmd.

(** The fields of [Model] that [Update] and the handlers read or write:
    the text input is its value and its focus, times are nanoseconds. *)
Record Model : Type := {
  mode : Mode;
  accounts : list db.WatchedAccount;
  error_ : option error;
  input : string;
  focused : bool;
  uptime : Z;
  startTime : Z;
  lastCheckTime : Z;
  checkInterval : Z
}.

#[global] Instance Mode_eq_dec : EqDecision Mode.
Proof. solve_decision. Defined.
#[global] Instance Cmd_eq_dec : EqDecision Cmd.
Proof. solve_decision. Defined.

Definition set_mode (md : Mode) (m : Model) : Model :=
  {| mode := md; accounts := accounts m; error_ := error_ m; input := input m;
     focused := focused m; uptime := uptime m; startTime := startTime m;
     lastCheckTime := lastCheckTime m; checkInterval := checkInterval m |}.

Definition set_accounts (l : list db.WatchedAccount) (m : Model) : Model :=
  {| mode := mode m; accounts := l; error_ := error_ m; input := input m;
     focused := focused m; uptime := uptime m; startTime := startTime m;
     lastCheckTime := lastCheckTime m; checkInterval := checkInterval m |}.

Definition set_error (e : option error) (m : Model) : Model :=
  {| mode := mode m; accounts := accounts m; error_ := e; input := input m;
     focused := focused m; uptime := uptime m; startTime := startTime m;
     lastCheckTime := lastCheckTime m; checkInterval := checkInterval m |}.

(** [m.textInput.Focus()], [.Blur()], [.Reset()] and the value after
    [m.textInput.Update(msg)]. *)
Definition set_focused (b : bool) (m : Model) : Model :=
  {| mode := mode m; accounts := accounts m; error_ := error_ m; input := input m;
     focused := b; uptime := uptime m; startTime := startTime m;
     lastCheckTime := lastCheckTime m; checkInterval := checkInterval m |}.

Definition set_input (v : string) (m : Model) : Model :=
  {| mode := mode m; accounts := accounts m; error_ := error_ m; input := v;
     focused := focused m; uptime := uptime m; startTime := startTime m;
     lastCheckTime := lastCheckTime m; checkInterval := checkInterval m |}.

Definition set_uptime (d : Z) (m : Model) : Model :=
  {| mode := mode m; accounts := accounts m; error_ := error_ m; input := input m;
     focused := focused m; uptime := d; startTime := startTime m;
     lastCheckTime := lastCheckTime m; checkInterval := checkInterval m |}.

Definition set_lastCheckTime (t : Z) (m : Model) : Model :=
  {| mode := mode m; accounts := accounts m; error_ := error_ m; input := input m;
     focused := focused m; uptime := uptime m; startTime := startTime m;
     lastCheckTime := t; checkInterval := checkInterval m |}.

(** *** loadAccounts: the cached list is replaced only when the query
    succeeds ([fl]: the fault of [GetWatchedAccounts]) *)
Definition loadAccounts (fl : fault) (s : db.Database) (m : Model)
    : Model * option error :=
  match db.GetWatchedAccounts fl s with
  | Err e => (m, Some e)
  | Ok l => (set_accounts l m, None)
  end.

(** *** handleRemoveByUsername ([f]: the fault of [RemoveWatchedAccount]);
    the account is looked up in the cached list, first match first. *)
Definition handleRemoveByUsername (f fl : fault) (m : Model) (s : db.Database)
    (username : string) : Model * db.Database * option error :=
  let username := TrimPrefix_at username in
  if bool_decide (username = "") then (m, s, Some "please enter a username")
  else
    match list_find (λ account, db.Username account = username) (accounts m) with
    | Some (_, account) =>
        match db.RemoveWatchedAccount f s (db.ID account) with
        | (s', Some e) => (m, s', Some e)
        | (s', None) =>
            let m := set_focused false (set_input "" (set_mode ModeNormal m)) in
            let '(m, e) := loadAccounts fl s' m in (m, s', e)
        end
    | None => (m, s, Some ("account @" +:+ username +:+ " not found"))
    end.

(** *** Update *)

Section update.
(** The two widgets of the bubbles library: the value of the text input
    after it has seen a message, and whether the spinner answers a message
    with a command. *)
Variable textInput_Update : bool → string → Msg → string.
Variable spinner_Update : Msg → bool.

(** The tail of [Update]: the text input sees the message in the two
    input modes. *)
Definition Update_tail (msg : Msg) (m : Model) (cmds : list Cmd) : Model * list Cmd :=
  match mode m with
  | ModeAddAccount | ModeRemoveAccount =>
      (set_input (textInput_Update (focused m) (input m) msg) m, cmds ++ [TextInputCmd])
  | _ => (m, cmds)
  end.

(** [now]: what [time.Now()] reads while the message is handled. *)
Definition Update (now : Z) (msg : Msg) (m : Model) : Model * list Cmd :=
  match msg with
  | KeyMsg key =>
      match mode m with
      | ModeNormal =>
          if bool_decide (key = "q") || bool_decide (key = "ctrl+c") then (m, [Quit])
          else if bool_decide (key = "a")
          then (set_focused true (set_mode ModeAddAccount m), [Blink])
          else if bool_decide (key = "l")
          then Update_tail msg (set_mode ModeListAccounts m) []
          else if bool_decide (key = "r")
          then (set_input "" (set_focused true (set_mode ModeRemoveAccount m)), [Blink])
          else Update_tail msg m []
      | ModeAddAccount =>
          if bool_decide (key = "enter") then (m, [HandleAddAccount (input m)])
          else if bool_decide (key = "esc")
          then Update_tail msg (set_focused false (set_error None (set_mode ModeNormal m))) []
          else Update_tail msg m []
      | ModeRemoveAccount =>
          if bool_decide (key = "enter") then (m, [HandleRemoveByUsername (input m)])
          else if bool_decide (key = "esc")
          then Update_tail msg (set_focused false (set_error None (set_mode ModeNormal m))) []
          else Update_tail msg m []
      | ModeListAccounts =>
          if bool_decide (key = "esc")
          then Update_tail msg (set_error None (set_mode ModeNormal m)) []
          else Update_tail msg m []
      end
  | checkTimerMsg =>
      if bool_decide (checkInterval m ≤ now - lastCheckTime m)
      then Update_tail msg (set_lastCheckTime now m) [CheckAccountsCmd; TickCheckTimer]
      else Update_tail msg m [TickCheckTimer]
  | tickMsg => Update_tail msg (set_uptime (now - startTime m) m) [TickUptime]
  | errMsg e => (set_error (Some e) m, [])
  | otherMsg =>
      Update_tail msg m (if spinner_Update msg then [SpinnerCmd] else [])
  end.

(** The model after a run of messages, each with the clock reading at
    which it is handled, and the readings at which a check was launched. *)
Fixpoint run (m : Model) (msgs : list (Z * Msg)) : Model * list Z :=
  match msgs with
  | [] => (m, [])
  | (now, msg) :: msgs' =>
      let '(m1, cmds) := Update now msg m in
      let '(m2, launches) := run m1 msgs' in
      (m2, if bool_decide (CheckAccountsCmd ∈ cmds) then now :: launches else launches)
  end.

End update.

(** Launch times that are at least [d] apart, the first at least [d] after
    [t0]. *)
Fixpoint spaced (d t0 : Z) (launches : list Z) : Prop :=
  match launches with
  | [] => True
  | t :: launches' => t0 + d ≤ t ∧ spaced d t launches'
  end.

(** *** formatDuration

    [Round]: [time.Duration.Round(time.Second)]; [/] on [int64] truncates
    towards zero. *)
Definition Second : Z := 1000000000.
Definition Minute : Z := 60 * Second.
Definition Hour : Z := 60 * Minute.

(** [fmt.Sprintf("%02d", v)] *)
Definition pad2 (v : Z) : string :=
  let digits := pretty v in
  if bool_decide (String.length digits < 2)%nat then "0" +:+ digits else digits.

Definition formatDuration (Round : Z → Z) (d : Z) : string :=
  let d := Round d in
  let h := d ÷ Hour in
  let d := d - h * Hour in
  let m := d ÷ Minute in
  let d := d - m * Minute in
  let s := d ÷ Second in
  if bool_decide (0 < h) then pretty h +:+ "h" +:+ pad2 m +:+ "m" +:+ pad2 s +:+ "s"
  else if bool_decide (0 < m) then pretty m +:+ "m" +:+ pad2 s +:+ "s"
  else pretty s +:+ "s".

End ui.

(** ** Concrete stores and environments *)

Module examples.

Definition accountX : db.WatchedAccount :=
  {| db.ID := 1; db.Username := "x"; db.UserID := "100" |}.

Definition accountY : db.WatchedAccount :=
  {| db.ID := 2; db.Username := "y"; db.UserID := "200" |}.

(** X is watched with snapshot {u1,u2,u3}; no event has been recorded. *)
Definition store1 : db.Database :=
  {| db.watched_accounts := [accountX];
     db.following := {[ (1, "u1"); (1, "u2"); (1, "u3") ]};
     db.follow_events := [] |}.

(** X with snapshot {u1,u2,u3}, Y with snapshot {v1}. *)
Definition store2 : db.Database :=
  {| db.watched_accounts := [accountX; accountY];
     db.following := {[ (1, "u1"); (1, "u2"); (1, "u3"); (2, "v1") ]};
     db.follow_events := [] |}.

Definition emptyStore : db.Database :=
  {| db.watched_accounts := []; db.following := ∅; db.follow_events := [] |}.

Definition latestX : list string := ["u2"; "u3"; "u4"].

(** X after the fetch [latestX] has been applied. *)
Definition store3 : db.Database :=
  {| db.watched_accounts := [accountX];
     db.following := {[ (1, "u2"); (1, "u3"); (1, "u4") ]};
     db.follow_events := [] |}.

(** The upstream answers for X and Y and for the new user "z"; no profile
    lookup succeeds. *)
Definition client : api.Client :=
  {| api.GetUser := λ username,
       if bool_decide (username = "z")
       then Ok {| api.RestID := "300"; api.ScreenName := "z"; api.FriendsCount := 2 |}
       else Err "API error: status=404";
     api.FollowingIDs := λ userID,
       if bool_decide (userID = "100")
       then Ok {| api.IDs := latestX; api.NextCursor := 0; api.NextCursorStr := "" |}
       else if bool_decide (userID = "200")
       then Ok {| api.IDs := ["v1"; "v2"]; api.NextCursor := 0; api.NextCursorStr := "" |}
       else if bool_decide (userID = "300")
       then Ok {| api.IDs := ["u1"; "u2"]; api.NextCursor := 0; api.NextCursorStr := "" |}
       else Err "API error: status=500";
     api.GetUserByID := λ _, Err "API error: status=404" |}.

(** Both channels configured, both switches on, every post accepted, no
    storage fault. *)
Definition env : ui.Env :=
  {| ui.api := client;
     ui.notifications :=
       Some (webhook.NewNotificationManager "https://discord.example/hook"
               "token" "chat" true true);
     ui.config := {| ui.EnableFollowNotifications := true;
                     ui.EnableUnfollowNotifications := true |};
     ui.post := λ _, None;
     ui.faults := λ _, ui.no_faults;
     ui.clock := λ _, 7 |}.

(** As [env], but the upstream fails for X and no post goes through. *)
Definition envXdown : ui.Env :=
  {| ui.api :=
       {| api.GetUser := api.GetUser client;
          api.FollowingIDs := λ userID,
            if bool_decide (userID = "100") then Err "API error: status=503"
            else api.FollowingIDs client userID;
          api.GetUserByID := api.GetUserByID client |};
     ui.notifications := ui.notifications env;
     ui.config := ui.config env;
     ui.post := λ _, Some "webhook error: status=500";
     ui.faults := λ _, ui.no_faults;
     ui.clock := λ _, 7 |}.

(** Two pages for user "100", the ID "u2" on both. *)
Definition overlapping : api.Upstream := λ userID cursor,
  if bool_decide (userID = "100") then
    match cursor with
    | None =>
        Ok {| api.IDs := ["u1"; "u2"]; api.NextCursor := 7; api.NextCursorStr := "7" |}
    | Some c =>
        if bool_decide (c = "7")
        then Ok {| api.IDs := ["u2"; "u3"]; api.NextCursor := 0; api.NextCursorStr := "0" |}
        else Err "API error: status=400"
    end
  else Err "API error: status=404".

Definition world (s : db.Database) : ui.World := {| ui.w_db := s; ui.w_sent := [] |}.

(** "z" is watched (ID 1) and nothing has been stored for it. *)
Definition accountZ : db.WatchedAccount :=
  {| db.ID := 1; db.Username := "z"; db.UserID := "300" |}.

Definition storeZ : db.Database :=
  {| db.watched_accounts := [accountZ]; db.following := ∅; db.follow_events := [] |}.

(** As [env], but no following list can be fetched. *)
Definition envDown : ui.Env :=
  {| ui.api :=
       {| api.GetUser := api.GetUser client;
          api.FollowingIDs := λ _, Err "API error: status=503";
          api.GetUserByID := api.GetUserByID client |};
     ui.notifications := ui.notifications env;
     ui.config := ui.config env;
     ui.post := ui.post env;
     ui.faults := λ _, ui.no_faults;
     ui.clock := λ _, 7 |}.

(** The first page is served, the request for the second one fails. *)
Definition breaking : api.Upstream := λ userID cursor,
  match cursor with
  | None =>
      Ok {| api.IDs := ["u1"; "u2"]; api.NextCursor := 7; api.NextCursorStr := "7" |}
  | Some _ => Err "API error: status=429"
  end.

(** Every page announces another one. *)
Definition endless : api.Upstream := λ userID cursor,
  Ok {| api.IDs := ["u1"]; api.NextCursor := 1; api.NextCursorStr := "1" |}.

(** A first page with [next_cursor] 5 and [next_cursor_str] "0". *)
Definition mismatched : api.Upstream := λ userID cursor,
  match cursor with
  | None =>
      Ok {| api.IDs := ["u1"]; api.NextCursor := 5; api.NextCursorStr := "0" |}
  | Some _ => Err "API error: status=400"
  end.

(** A reader of the two header values used below and a decoder that takes
    every body. *)
Definition Atoi : string → option Z := λ s,
  if bool_decide (s = "29") then Some 29
  else if bool_decide (s = "0") then Some 0 else None.

Definition decode : string → result string := Ok.

(** A success with 29 requests left, a refusal with none left, a request
    that did not get through, a success without the header. *)
Definition responses : list (result api.Response) :=
  [Ok {| api.StatusCode := 200; api.RateLimitRemaining := "29"; api.Body := "{}" |};
   Ok {| api.StatusCode := 429; api.RateLimitRemaining := "0"; api.Body := "quota" |};
   Err "timeout";
   Ok {| api.StatusCode := 200; api.RateLimitRemaining := ""; api.Body := "{}" |}].

(** The terminal with X and Y in its cached list, in a given mode. *)
Definition model (md : ui.Mode) : ui.Model :=
  {| ui.mode := md; ui.accounts := [accountX; accountY]; ui.error_ := None;
     ui.input := "y"; ui.focused := true; ui.uptime := 0; ui.startTime := 0;
     ui.lastCheckTime := 0; ui.checkInterval := 300 * ui.Second |}.

(** A text input that appends the key it sees while focused, and a spinner
    that answers every message. *)
Definition textInput_Update : bool → string → ui.Msg → string := λ focused v msg,
  match msg with
  | ui.KeyMsg key => if focused then v +:+ key else v
  | _ => v
  end.

Definition spinner_Update : ui.Msg → bool := λ _, true.

(** Another iteration order of Go maps: the keys the other way round. *)
Definition reversed_order : MapOrder :=
  {| range := λ s, reverse (elements s);
     range_perm := λ s, reverse_Permutation (elements s) |}.

End examples.

(** Closed goals on concrete data are decided by evaluation. *)
Ltac by_evaluation := apply (bool_decide_unpack _); vm_compute; exact I.

(** * Auxiliary facts *)

Import db.

#[local] Set Warnings "-clear-no-such-hyp".

(** ** Transactions *)

Lemma fails_None k : fails None k = false.
Proof. done. Qed.

Lemma transaction_atomic f bm cm body s s' e :
  transaction f bm cm body s = (s', Some e) → s' = s.
Proof.
  unfold transaction. intros Ht.
  destruct (fails f 0); [by inversion Ht|].
  destruct (body 1%nat s) as [[[] [k s1]]|e1]; [|by inversion Ht].
  destruct (fails f k); by inversion Ht.
Qed.

Lemma transaction_commit f bm cm body s s' :
  transaction f bm cm body s = (s', None) →
  ∃ k, body 1%nat s = Ok (tt, (k, s')).
Proof.
  unfold transaction. intros Ht.
  destruct (fails f 0); [by inversion Ht|].
  destruct (body 1%nat s) as [[[] [k s1]]|e1]; [|by inversion Ht].
  destruct (fails f k); inversion Ht; subst. by exists k.
Qed.

Lemma transaction_no_fault bm cm body s k s' :
  body 1%nat s = Ok (tt, (k, s')) →
  transaction None bm cm body s = (s', None).
Proof. unfold transaction. rewrite !fails_None. by intros ->. Qed.

Lemma tx_bind_ok {A B} (m : Tx A) (g : A → Tx B) k s b k2 s2 :
  (m ≫= g) k s = Ok (b, (k2, s2)) ↔
  ∃ a k1 s1, m k s = Ok (a, (k1, s1)) ∧ g a k1 s1 = Ok (b, (k2, s2)).
Proof.
  unfold mbind, tx_bind. split.
  - destruct (m k s) as [[a [k1 s1]]|]; [|done]. intros Hg. by exists a, k1, s1.
  - intros (a & k1 & s1 & -> & Hg). done.
Qed.

Lemma exec_ok f msg stmt k s u k' s' :
  exec f msg stmt k s = Ok (u, (k', s')) → s' = stmt s.
Proof. unfold exec. destruct (fails f k); [done|]. by inversion 1. Qed.

Lemma query_ok {A} f msg (q : Database → A) k s a k' s' :
  query f msg q k s = Ok (a, (k', s')) → a = q s ∧ s' = s.
Proof. unfold query. destruct (fails f k); [done|]. by inversion 1. Qed.

Lemma for_each_ok {A} f msg (cond : A → bool) stmt body (l : list A) k s u k' s' :
  (∀ x, body x = when (cond x) (exec f msg (stmt x))) →
  for_each l body k s = Ok (u, (k', s')) →
  s' = run_stmts cond stmt l s.
Proof.
  intros Hbody. revert k s. induction l as [|x l IH]; intros k s; simpl.
  - by inversion 1.
  - intros (a & k1 & s1 & Hx & Hl)%tx_bind_ok.
    apply IH in Hl as ->. unfold run_stmts. simpl. f_equal.
    rewrite Hbody in Hx. unfold when in Hx. destruct (cond x).
    + by apply exec_ok in Hx.
    + by inversion Hx.
Qed.

Lemma for_each_no_fault {A} msg (cond : A → bool) stmt body (l : list A) k s :
  (∀ x, body x = when (cond x) (exec None msg (stmt x))) →
  ∃ k', for_each l body k s = Ok (tt, (k', run_stmts cond stmt l s)).
Proof.
  intros Hbody. revert k s. induction l as [|x l IH]; intros k s; simpl.
  - by exists k.
  - unfold mbind, tx_bind. rewrite Hbody. unfold when.
    destruct (cond x) eqn:Hc.
    + unfold exec at 1. rewrite fails_None.
      destruct (IH (S k) (stmt x s)) as [k' Hk']. exists k'.
      rewrite Hk'. unfold run_stmts. simpl. by rewrite ?Hc.
    + unfold mret, tx_ret. destruct (IH k s) as [k' Hk']. exists k'.
      rewrite Hk'. unfold run_stmts. simpl. by rewrite ?Hc.
Qed.

(** *** The [following] table *)
Lemma elem_of_select_followings acc s x :
  x ∈ select_followings acc s ↔ (acc, x) ∈ following s.
Proof.
  unfold select_followings. rewrite elem_of_map. split.
  - intros ([a y] & -> & [Ha Hin]%elem_of_filter). simpl in *. by subst.
  - intros Hin. exists (acc, x). split; [done|]. by apply elem_of_filter.
Qed.

Lemma run_stmts_frame {A} (P : Database → Prop) (cond : A → bool) stmt l s :
  (∀ x s, P s → P (stmt x s)) → P s → P (run_stmts cond stmt l s).
Proof.
  intros Hstep. revert s. induction l as [|x l IH]; intros s Hs; [done|].
  unfold run_stmts. simpl. apply IH. destruct (cond x); auto.
Qed.

Lemma deletes_following acc (new : gset string) l s p :
  p ∈ following (run_stmts (λ id, bool_decide (id ∉ new)) (delete_following acc) l s) ↔
  p ∈ following s ∧ ¬ (p.1 = acc ∧ p.2 ∈ l ∧ p.2 ∉ new).
Proof.
  revert s. induction l as [|x l IH]; intros s.
  - unfold run_stmts. simpl. set_solver.
  - unfold run_stmts in *. simpl. rewrite IH. destruct p as [a y]. simpl.
    case_bool_decide; simpl; set_solver.
Qed.

Lemma inserts_following acc (cur : gset string) l s p :
  p ∈ following (run_stmts (λ id, bool_decide (id ∉ cur)) (insert_following acc) l s) ↔
  p ∈ following s ∨ (p.1 = acc ∧ p.2 ∈ l ∧ p.2 ∉ cur).
Proof.
  revert s. induction l as [|x l IH]; intros s.
  - unfold run_stmts. simpl. set_solver.
  - unfold run_stmts in *. simpl. rewrite IH. destruct p as [a y]. simpl.
    case_bool_decide; simpl; set_solver.
Qed.

(** ** The store methods *)

Section store_facts.
Context `{MapOrder}.

Lemma elem_of_range (s : gset string) x : x ∈ range s ↔ x ∈ s.
Proof. rewrite (range_perm s). apply elem_of_elements. Qed.

(** What a committed [StoreFollowings] leaves: the deletions, then the
    insertions. *)
Lemma StoreFollowings_commit f s acc L s' :
  StoreFollowings f s acc L = (s', None) →
  s' = run_stmts (λ id, bool_decide (id ∉ select_followings acc s))
         (insert_following acc) L
         (run_stmts (λ id, bool_decide (id ∉ (list_to_set L : gset string)))
            (delete_following acc) (range (select_followings acc s)) s).
Proof.
  unfold StoreFollowings. intros [k Hbody]%transaction_commit.
  apply tx_bind_ok in Hbody as (cur & k1 & s1 & [-> ->]%query_ok & Hbody).
  apply tx_bind_ok in Hbody as ([] & k2 & s2 & Hdel & Hbody).
  apply tx_bind_ok in Hbody as ([] & k3 & s3 & ->%exec_ok & Hins).
  eapply for_each_ok in Hdel; [|done]. eapply for_each_ok in Hins; [|done].
  by subst.
Qed.

Lemma StoreFollowings_rollback f s acc L s' e :
  StoreFollowings f s acc L = (s', Some e) → s' = s.
Proof. apply transaction_atomic. Qed.

Lemma StoreFollowings_no_fault s acc L :
  ∃ s', StoreFollowings None s acc L = (s', None).
Proof.
  unfold StoreFollowings.
  set (cur := select_followings acc s).
  destruct (for_each_no_fault "deleting unfollow"
              (λ id, bool_decide (id ∉ (list_to_set L : gset string)))
              (delete_following acc) _ (range cur) 2%nat s (λ _, eq_refl))
    as [k2 Hdel].
  destruct (for_each_no_fault "inserting new follow"
              (λ id, bool_decide (id ∉ cur)) (insert_following acc) _ L (S k2)
              (run_stmts (λ id, bool_decide (id ∉ (list_to_set L : gset string)))
                 (delete_following acc) (range cur) s) (λ _, eq_refl))
    as [k3 Hins].
  eexists. eapply transaction_no_fault.
  unfold mbind, tx_bind, query at 1. rewrite fails_None. fold cur.
  rewrite Hdel. unfold exec at 1. rewrite fails_None. exact Hins.
Qed.

(** The rows of a committed [StoreFollowings]. *)
Lemma StoreFollowings_following f s acc L s' a x :
  StoreFollowings f s acc L = (s', None) →
  (a, x) ∈ following s' ↔
  if decide (a = acc) then x ∈ L else (a, x) ∈ following s.
Proof.
  intros ->%StoreFollowings_commit.
  rewrite inserts_following, deletes_following. simpl.
  rewrite elem_of_range, !elem_of_select_followings, elem_of_list_to_set.
  destruct (decide (a = acc)) as [->|Hne]; [|naive_solver].
  destruct (decide (x ∈ L)); destruct (decide ((acc, x) ∈ following s));
    naive_solver.
Qed.

Lemma StoreFollowings_other_tables f s acc L s' e :
  StoreFollowings f s acc L = (s', e) →
  watched_accounts s' = watched_accounts s ∧ follow_events s' = follow_events s.
Proof.
  destruct e as [e|].
  - by intros ->%StoreFollowings_rollback.
  - intros ->%StoreFollowings_commit.
    split; (apply (run_stmts_frame (λ s', _ s' = _)); [done|]);
      by apply (run_stmts_frame (λ s', _ s' = _)).
Qed.

End store_facts.

(** The rows a loop of [insert_event] statements appends. *)
Lemma insert_events_keys acc ty now ids s :
  event_key <$> follow_events
                  (run_stmts (λ _, true) (insert_event acc ty now) ids s)
  = (event_key <$> follow_events s) ++ ((λ id, (acc, id, ty, now)) <$> ids).
Proof.
  revert s. induction ids as [|id ids IH]; intros s; unfold run_stmts in *; simpl.
  - by rewrite app_nil_r.
  - rewrite IH. simpl. rewrite fmap_app, <- app_assoc. done.
Qed.

Lemma insert_events_length acc ty now ids s :
  length (follow_events (run_stmts (λ _, true) (insert_event acc ty now) ids s))
  = (length (follow_events s) + length ids)%nat.
Proof.
  rewrite <- (length_fmap event_key), insert_events_keys.
  by rewrite length_app, !length_fmap.
Qed.

Lemma StoreFollowEvents_commit f s acc follows unfollows now s' :
  StoreFollowEvents f s acc follows unfollows now = (s', None) →
  s' = run_stmts (λ _, true) (insert_event acc EventTypeUnfollow now) unfollows
         (run_stmts (λ _, true) (insert_event acc EventTypeFollow now) follows s).
Proof.
  unfold StoreFollowEvents. intros [k Hbody]%transaction_commit.
  apply tx_bind_ok in Hbody as ([] & k1 & s1 & ->%exec_ok & Hbody).
  apply tx_bind_ok in Hbody as ([] & k2 & s2 & Hfol & Hunf).
  eapply (for_each_ok _ _ (λ _, true)) in Hfol; [|done].
  eapply (for_each_ok _ _ (λ _, true)) in Hunf; [|done].
  by subst.
Qed.

Lemma StoreFollowEvents_rollback f s acc follows unfollows now s' e :
  StoreFollowEvents f s acc follows unfollows now = (s', Some e) → s' = s.
Proof. apply transaction_atomic. Qed.

Lemma StoreFollowEvents_no_fault s acc follows unfollows now :
  ∃ s', StoreFollowEvents None s acc follows unfollows now = (s', None).
Proof.
  unfold StoreFollowEvents.
  destruct (for_each_no_fault "inserting follow event" (λ _, true)
              (insert_event acc EventTypeFollow now)
              (λ userID, exec None "inserting follow event"
                           (insert_event acc EventTypeFollow now userID))
              follows 2%nat s (λ _, eq_refl)) as [k2 Hfol].
  destruct (for_each_no_fault "inserting unfollow event" (λ _, true)
              (insert_event acc EventTypeUnfollow now)
              (λ userID, exec None "inserting unfollow event"
                           (insert_event acc EventTypeUnfollow now userID))
              unfollows k2
              (run_stmts (λ _, true) (insert_event acc EventTypeFollow now) follows s)
              (λ _, eq_refl)) as [k3 Hunf].
  eexists. eapply transaction_no_fault.
  unfold mbind, tx_bind, exec at 1. rewrite fails_None.
  rewrite Hfol. exact Hunf.
Qed.

(** A committed [StoreFollowEvents] appends one row per ID, follows first,
    and touches no other table. *)
Lemma StoreFollowEvents_spec f s acc follows unfollows now s' :
  StoreFollowEvents f s acc follows unfollows now = (s', None) →
  event_key <$> follow_events s'
  = (event_key <$> follow_events s)
    ++ ((λ id, (acc, id, EventTypeFollow, now)) <$> follows)
    ++ ((λ id, (acc, id, EventTypeUnfollow, now)) <$> unfollows)
  ∧ following s' = following s
  ∧ watched_accounts s' = watched_accounts s.
Proof.
  intros ->%StoreFollowEvents_commit. split; [|split].
  - by rewrite !insert_events_keys, <- app_assoc.
  - apply (run_stmts_frame (λ s', following s' = _)); [done|].
    by apply (run_stmts_frame (λ s', following s' = _)).
  - apply (run_stmts_frame (λ s', watched_accounts s' = _)); [done|].
    by apply (run_stmts_frame (λ s', watched_accounts s' = _)).
Qed.

(** ** Change detection *)

Section diff_facts.
Context `{MapOrder}.

Lemma findNewFollows_acc (cur : gset string) ids (m : gset string) nf :
  foldl (λ '(newFollowingsMap, newFollows) id,
           ({[ id ]} ∪ newFollowingsMap,
            if bool_decide (id ∈ cur) then newFollows else newFollows ++ [id]))
        (m, nf) ids
  = (list_to_set ids ∪ m, nf ++ filter (λ id, id ∉ cur) ids).
Proof.
  revert m nf. induction ids as [|id ids IH]; intros m nf; simpl.
  - f_equal; [set_solver|by rewrite app_nil_r].
  - rewrite IH. f_equal; [set_solver|].
    rewrite filter_cons. case_bool_decide; case_decide; try done.
    by rewrite <- app_assoc.
Qed.

Lemma findUnfollows_acc (new : gset string) l (unfollows : list string) :
  foldl (λ unfollows id,
           if bool_decide (id ∈ new) then unfollows else unfollows ++ [id])
        unfollows l
  = unfollows ++ filter (λ id, id ∉ new) l.
Proof.
  revert unfollows. induction l as [|x l IH]; intros unfollows; simpl.
  - by rewrite app_nil_r.
  - rewrite IH, filter_cons. case_bool_decide; case_decide; try done.
    by rewrite <- app_assoc.
Qed.

Lemma detectChanges_filter (cur : gset string) ids :
  detectChanges cur ids
  = (filter (λ id, id ∉ cur) ids,
     filter (λ id, id ∉ (list_to_set ids : gset string)) (range cur)).
Proof.
  unfold detectChanges, findNewFollows. rewrite findNewFollows_acc. simpl.
  f_equal. unfold findUnfollows. rewrite findUnfollows_acc. simpl.
  by replace (list_to_set ids ∪ ∅) with (list_to_set ids : gset string)
    by set_solver.
Qed.

Lemma detectChanges_added (cur : gset string) ids x :
  x ∈ (detectChanges cur ids).1 ↔ x ∈ ids ∧ x ∉ cur.
Proof. rewrite detectChanges_filter. simpl. rewrite list_elem_of_filter. tauto. Qed.

Lemma detectChanges_removed (cur : gset string) ids x :
  x ∈ (detectChanges cur ids).2 ↔ x ∈ cur ∧ x ∉ ids.
Proof.
  rewrite detectChanges_filter. simpl.
  rewrite list_elem_of_filter, elem_of_range, elem_of_list_to_set. tauto.
Qed.

Lemma hasChanges_false (newFollows unfollows : list string) :
  hasChanges newFollows unfollows = false ↔ newFollows = [] ∧ unfollows = [].
Proof.
  unfold hasChanges. rewrite orb_false_iff, !bool_decide_eq_false.
  destruct newFollows, unfollows; simpl; split; intros [??]; try done;
    split; try done; lia.
Qed.

Lemma filter_none {A} (P : A → Prop) `{∀ x, Decision (P x)} (l : list A) :
  (∀ x, x ∈ l → ¬ P x) → filter P l = [].
Proof.
  induction l as [|x l IH]; intros Hl; [done|].
  rewrite filter_cons. destruct (decide (P x)) as [HP|_].
  - exfalso. apply (Hl x); [left|done].
  - apply IH. intros y Hy. apply Hl. by right.
Qed.

Lemma filter_all {A} (P : A → Prop) `{∀ x, Decision (P x)} (l : list A) :
  (∀ x, x ∈ l → P x) → filter P l = l.
Proof.
  induction l as [|x l IH]; intros Hl; [done|].
  rewrite filter_cons, decide_True by (apply Hl; left).
  f_equal. apply IH. intros y Hy. apply Hl. by right.
Qed.

(** No change is detected exactly when the fetched IDs are, as a set, the
    stored ones. *)
Lemma detectChanges_nil (cur : gset string) ids :
  detectChanges cur ids = ([], []) ↔ list_to_set ids = cur.
Proof.
  split.
  - intros Hd. apply set_eq. intros x. rewrite elem_of_list_to_set.
    pose proof (detectChanges_added cur ids x) as Ha.
    pose proof (detectChanges_removed cur ids x) as Hr.
    rewrite Hd in Ha, Hr. simpl in *. rewrite elem_of_nil in Ha, Hr.
    destruct (decide (x ∈ ids)); destruct (decide (x ∈ cur)); tauto.
  - intros <-. rewrite detectChanges_filter. f_equal.
    + apply filter_none. intros x Hx. set_solver.
    + apply filter_none. intros x Hx%elem_of_range. tauto.
Qed.

End diff_facts.

(** ** Notifications *)

Lemma channel_block_attempts {W} enabled (hook : option W) notify failure :
  (webhook.channel_block enabled hook notify failure).1
  = match enabled, hook with
    | true, Some w => (notify w).1
    | _, _ => []
    end.
Proof.
  unfold webhook.channel_block. destruct enabled, hook as [w|]; try done.
  by destruct (notify w) as [ms [e|]].
Qed.

Lemma Discord_notify_attempts kind d post client account ids :
  (webhook.Discord_notify kind d post client account ids).1
  = if bool_decide (webhook.URL d = "") then []
    else [webhook.message webhook.Discord kind client account ids].
Proof. unfold webhook.Discord_notify. by case_bool_decide. Qed.

Lemma Telegram_notify_attempts kind t post client account ids :
  (webhook.Telegram_notify kind t post client account ids).1
  = if bool_decide (webhook.botToken t = "") || bool_decide (webhook.chatID t = "")
    then [] else [webhook.message webhook.Telegram kind client account ids].
Proof. unfold webhook.Telegram_notify. by destruct (_ || _). Qed.

Lemma NotifyNewFollows_attempts m post client account follows :
  (webhook.NotifyNewFollows m post client account follows).1
  = webhook.attempts EventTypeFollow m client account follows.
Proof.
  unfold webhook.NotifyNewFollows, webhook.attempts.
  pose proof (channel_block_attempts (webhook.enableDiscord m) (webhook.discord m)
    (λ d, webhook.Discord_notify EventTypeFollow d post client account follows)
    "Failed to send Discord follow notification: ") as Hd.
  pose proof (channel_block_attempts (webhook.enableTelegram m) (webhook.telegram m)
    (λ t, webhook.Telegram_notify EventTypeFollow t post client account follows)
    "Failed to send Telegram follow notification: ") as Ht.
  destruct (webhook.channel_block (webhook.enableDiscord m) _ _ _) as [ms1 log1].
  destruct (webhook.channel_block (webhook.enableTelegram m) _ _ _) as [ms2 log2].
  simpl in *. subst.
  destruct (webhook.enableDiscord m), (webhook.discord m),
    (webhook.enableTelegram m), (webhook.telegram m);
    by rewrite ?Discord_notify_attempts, ?Telegram_notify_attempts.
Qed.

Lemma NotifyUnfollows_attempts m post client account unfollows :
  (webhook.NotifyUnfollows m post client account unfollows).1
  = webhook.attempts EventTypeUnfollow m client account unfollows.
Proof.
  unfold webhook.NotifyUnfollows, webhook.attempts.
  pose proof (channel_block_attempts (webhook.enableDiscord m) (webhook.discord m)
    (λ d, webhook.Discord_notify EventTypeUnfollow d post client account unfollows)
    "Failed to send Discord unfollow notification: ") as Hd.
  pose proof (channel_block_attempts (webhook.enableTelegram m) (webhook.telegram m)
    (λ t, webhook.Telegram_notify EventTypeUnfollow t post client account unfollows)
    "Failed to send Telegram unfollow notification: ") as Ht.
  destruct (webhook.channel_block (webhook.enableDiscord m) _ _ _) as [ms1 log1].
  destruct (webhook.channel_block (webhook.enableTelegram m) _ _ _) as [ms2 log2].
  simpl in *. subst.
  destruct (webhook.enableDiscord m), (webhook.discord m),
    (webhook.enableTelegram m), (webhook.telegram m);
    by rewrite ?Discord_notify_attempts, ?Telegram_notify_attempts.
Qed.

Lemma attempts_username kind m client account ids msg :
  msg ∈ webhook.attempts kind m client account ids →
  webhook.msg_username msg = Username account.
Proof.
  unfold webhook.attempts. intros Hin.
  apply elem_of_app in Hin as [Hin|Hin].
  - destruct (webhook.enableDiscord m), (webhook.discord m) as [d|];
      try by apply elem_of_nil in Hin.
    case_bool_decide; [by apply elem_of_nil in Hin|].
    by apply list_elem_of_singleton in Hin as ->.
  - destruct (webhook.enableTelegram m), (webhook.telegram m) as [t|];
      try by apply elem_of_nil in Hin.
    destruct (_ || _); [by apply elem_of_nil in Hin|].
    by apply list_elem_of_singleton in Hin as ->.
Qed.

Lemma sendNotifications_attempts env account newFollows unfollows :
  ui.sendNotifications env account newFollows unfollows
  = match ui.notifications env with
    | None => []
    | Some m =>
        (if ui.EnableFollowNotifications (ui.config env)
            && bool_decide (0 < length newFollows)%nat
         then webhook.attempts EventTypeFollow m (ui.api env) account newFollows
         else []) ++
        (if ui.EnableUnfollowNotifications (ui.config env)
            && bool_decide (0 < length unfollows)%nat
         then webhook.attempts EventTypeUnfollow m (ui.api env) account unfollows
         else [])
    end.
Proof.
  unfold ui.sendNotifications. destruct (ui.notifications env) as [m|]; [|done].
  by rewrite NotifyNewFollows_attempts, NotifyUnfollows_attempts.
Qed.

Lemma sendNotifications_username env account newFollows unfollows msg :
  msg ∈ ui.sendNotifications env account newFollows unfollows →
  webhook.msg_username msg = Username account.
Proof.
  rewrite sendNotifications_attempts.
  destruct (ui.notifications env) as [m|]; [|by intros ?%elem_of_nil].
  intros [Hin|Hin]%elem_of_app.
  - destruct (_ && _); [by eapply attempts_username|by apply elem_of_nil in Hin].
  - destruct (_ && _); [by eapply attempts_username|by apply elem_of_nil in Hin].
Qed.

Lemma sendNotifications_nil env account :
  ui.sendNotifications env account [] [] = [].
Proof.
  rewrite sendNotifications_attempts.
  destruct (ui.notifications env); [|done]. simpl. by rewrite !andb_false_r.
Qed.

Lemma sendNotifications_with_post env post' account newFollows unfollows :
  ui.sendNotifications (ui.with_post env post') account newFollows unfollows
  = ui.sendNotifications env account newFollows unfollows.
Proof. by rewrite !sendNotifications_attempts. Qed.

(** Both channels configured and every post refused: both posts are still
    attempted, and both failures end in the log. *)
Example NotifyNewFollows_both_refused :
  ∃ m, ui.notifications examples.envXdown = Some m
  ∧ webhook.NotifyNewFollows m (ui.post examples.envXdown) examples.client
      examples.accountY ["v2"]
    = ([webhook.message webhook.Discord EventTypeFollow examples.client
          examples.accountY ["v2"];
        webhook.message webhook.Telegram EventTypeFollow examples.client
          examples.accountY ["v2"]],
       ["Failed to send Discord follow notification: webhook error: status=500";
        "Failed to send Telegram follow notification: webhook error: status=500"]).
Proof. eexists. split; reflexivity. Qed.

(** ** One step of the reconciliation cycle *)

Lemma select_followings_ext acc s s' :
  (∀ x, (acc, x) ∈ following s' ↔ (acc, x) ∈ following s) →
  select_followings acc s' = select_followings acc s.
Proof.
  intros Hrows. apply set_eq. intros x. by rewrite !elem_of_select_followings.
Qed.

Lemma delta_keys_other acc acc' now added removed :
  acc ≠ acc' →
  filter (λ k : Z * string * EventType * Z, k.1.1.1 = acc')
         (delta_keys acc now added removed) = [].
Proof.
  intros Hne. apply filter_none. intros k Hk. unfold delta_keys in Hk.
  apply elem_of_app in Hk as [Hk|Hk];
    apply list_elem_of_fmap in Hk as (id & -> & _); simpl; congruence.
Qed.

Lemma delta_keys_self acc now added removed :
  filter (λ k : Z * string * EventType * Z, k.1.1.1 = acc)
         (delta_keys acc now added removed) = delta_keys acc now added removed.
Proof.
  apply filter_all. intros k Hk. unfold delta_keys in Hk.
  apply elem_of_app in Hk as [Hk|Hk];
    by apply list_elem_of_fmap in Hk as (id & -> & _).
Qed.

Lemma StoreFollowEvents_keys f s acc follows unfollows now s' :
  StoreFollowEvents f s acc follows unfollows now = (s', None) →
  event_key <$> follow_events s'
  = (event_key <$> follow_events s) ++ delta_keys acc now follows unfollows.
Proof. by intros (-> & _ & _)%StoreFollowEvents_spec. Qed.

Section cycle_facts.
Context `{MapOrder}.

(** The three ways a step ends: nothing written (an upstream or storage
    failure before the first write, or no change); the events committed and
    the snapshot rewrite rolled back; both committed and the notifications
    sent. *)
Lemma checkAccount_cases env w account :
  ui.checkAccount env w account = w ∨
  ∃ r s1,
    api.FollowingIDs (ui.api env) (UserID account) = Ok r ∧
    StoreFollowEvents (ui.f_events (ui.faults env (ID account))) (ui.w_db w)
      (ID account)
      (detectChanges (select_followings (ID account) (ui.w_db w)) (api.IDs r)).1
      (detectChanges (select_followings (ID account) (ui.w_db w)) (api.IDs r)).2
      (ui.clock env (ID account)) = (s1, None) ∧
    (ui.checkAccount env w account = {| ui.w_db := s1; ui.w_sent := ui.w_sent w |} ∨
     ∃ s2,
       StoreFollowings (ui.f_followings (ui.faults env (ID account))) s1
         (ID account) (api.IDs r) = (s2, None) ∧
       ui.checkAccount env w account
       = {| ui.w_db := s2;
            ui.w_sent := ui.w_sent w ++
              ui.sendNotifications env account
                (detectChanges (select_followings (ID account) (ui.w_db w)) (api.IDs r)).1
                (detectChanges (select_followings (ID account) (ui.w_db w)) (api.IDs r)).2 |}).
Proof.
  unfold ui.checkAccount.
  destruct (api.FollowingIDs _ _) as [r|e]; [|by left].
  unfold GetCurrentFollowings. destruct (fails _ 0); [by left|].
  destruct (detectChanges _ _) as [newFollows unfollows] eqn:Hd. simpl.
  destruct (hasChanges _ _); [|by left].
  destruct (StoreFollowEvents _ _ _ _ _ _) as [s1 [e|]] eqn:Hev.
  { apply StoreFollowEvents_rollback in Hev as ->. left. by destruct w. }
  right. exists r, s1. rewrite Hd. simpl. split; [done|]. split; [exact Hev|].
  destruct (StoreFollowings _ _ _ _) as [s2 [e|]] eqn:Hst.
  - apply StoreFollowings_rollback in Hst as ->. by left.
  - right. by exists s2.
Qed.

Lemma checkAccount_unchanged env w account r :
  api.FollowingIDs (ui.api env) (UserID account) = Ok r →
  list_to_set (api.IDs r) = select_followings (ID account) (ui.w_db w) →
  ui.checkAccount env w account = w.
Proof.
  intros Hfetch Hsame%detectChanges_nil. unfold ui.checkAccount.
  rewrite Hfetch. unfold GetCurrentFollowings. destruct (fails _ 0); [done|].
  by rewrite Hsame.
Qed.

(** A step for [account] leaves what the store and the outbox hold for an
    account with another ID and another username. *)
Lemma checkAccount_other env w account other :
  ID account ≠ ID other →
  Username account ≠ Username other →
  select_followings (ID other) (ui.w_db (ui.checkAccount env w account))
    = select_followings (ID other) (ui.w_db w)
  ∧ event_keys_of (ID other) (ui.w_db (ui.checkAccount env w account))
    = event_keys_of (ID other) (ui.w_db w)
  ∧ filter (λ m, webhook.msg_username m = Username other)
           (ui.w_sent (ui.checkAccount env w account))
    = filter (λ m, webhook.msg_username m = Username other) (ui.w_sent w).
Proof.
  intros Hid Hname.
  destruct (checkAccount_cases env w account)
    as [->|(r & s1 & _ & Hev & [->|(s2 & Hst & ->)])]; [done|..]; simpl.
  - pose proof (StoreFollowEvents_keys _ _ _ _ _ _ _ Hev) as Hkeys.
    apply StoreFollowEvents_spec in Hev as (_ & Hrows & _).
    split; [|split; [|done]].
    + apply select_followings_ext. intros x. by rewrite Hrows.
    + unfold event_keys_of. rewrite Hkeys, filter_app, delta_keys_other by done.
      by rewrite app_nil_r.
  - pose proof (StoreFollowEvents_keys _ _ _ _ _ _ _ Hev) as Hkeys.
    apply StoreFollowEvents_spec in Hev as (_ & Hrows & _).
    pose proof (StoreFollowings_other_tables _ _ _ _ _ _ Hst) as [_ Hevs].
    split; [|split].
    + apply select_followings_ext. intros x.
      rewrite (StoreFollowings_following _ _ _ _ _ _ _ Hst).
      rewrite decide_False by done. by rewrite Hrows.
    + unfold event_keys_of. rewrite Hevs, Hkeys, filter_app, delta_keys_other by done.
      by rewrite app_nil_r.
    + rewrite filter_app. rewrite <- (app_nil_r (filter _ (ui.w_sent w))) at 2.
      f_equal. apply filter_none. intros m Hm%sendNotifications_username.
      congruence.
Qed.

(** A step without storage faults whose fetch succeeded: the snapshot is
    the fetched set, the events of the delta are appended and the
    notifications of the delta are sent. *)
Lemma checkAccount_processed env w account r :
  ui.faults env (ID account) = ui.no_faults →
  api.FollowingIDs (ui.api env) (UserID account) = Ok r →
  select_followings (ID account) (ui.w_db (ui.checkAccount env w account))
    = list_to_set (api.IDs r)
  ∧ event_keys_of (ID account) (ui.w_db (ui.checkAccount env w account))
    = event_keys_of (ID account) (ui.w_db w) ++
      delta_keys (ID account) (ui.clock env (ID account))
        (detectChanges (select_followings (ID account) (ui.w_db w)) (api.IDs r)).1
        (detectChanges (select_followings (ID account) (ui.w_db w)) (api.IDs r)).2
  ∧ ui.w_sent (ui.checkAccount env w account)
    = ui.w_sent w ++
      ui.sendNotifications env account
        (detectChanges (select_followings (ID account) (ui.w_db w)) (api.IDs r)).1
        (detectChanges (select_followings (ID account) (ui.w_db w)) (api.IDs r)).2.
Proof.
  intros Hfaults Hfetch. unfold ui.checkAccount.
  rewrite Hfetch, Hfaults. simpl. unfold GetCurrentFollowings. rewrite ?fails_None.
  destruct (detectChanges _ _) as [newFollows unfollows] eqn:Hd. simpl.
  destruct (hasChanges _ _) eqn:Hch.
  - destruct (StoreFollowEvents_no_fault (ui.w_db w) (ID account) newFollows
                unfollows (ui.clock env (ID account))) as [s1 Hev].
    destruct (StoreFollowings_no_fault s1 (ID account) (api.IDs r)) as [s2 Hst].
    rewrite Hev, Hst. simpl.
    pose proof (StoreFollowEvents_keys _ _ _ _ _ _ _ Hev) as Hkeys.
    pose proof (StoreFollowings_other_tables _ _ _ _ _ _ Hst) as [_ Hevs].
    split; [|split; [|done]].
    + apply set_eq. intros x.
      rewrite elem_of_select_followings,
        (StoreFollowings_following _ _ _ _ _ _ _ Hst), decide_True by done.
      by rewrite elem_of_list_to_set.
    + unfold event_keys_of. by rewrite Hevs, Hkeys, filter_app, delta_keys_self.
  - apply hasChanges_false in Hch as [-> ->].
    apply detectChanges_nil in Hd.
    rewrite sendNotifications_nil, !app_nil_r. done.
Qed.

End cycle_facts.

(** ** Pagination *)

Lemma GetFollowingIDs_loop_serves up userID nextCursor pages :
  api.serves up userID nextCursor pages →
  ∀ fuel allIDs, (length pages ≤ fuel)%nat →
    api.GetFollowingIDs_loop fuel up userID allIDs nextCursor
    = Some (Ok {| api.IDs := allIDs ++ concat pages;
                  api.NextCursor := 0; api.NextCursorStr := "" |}).
Proof.
  induction 1 as [nextCursor r Hup Hend|nextCursor r pages Hup Hmore _ IH];
    intros fuel allIDs Hfuel; simpl in Hfuel.
  - destruct fuel as [|fuel]; [lia|]. simpl. rewrite Hup.
    rewrite bool_decide_eq_true_2 by done. by rewrite app_nil_r.
  - destruct fuel as [|fuel]; [lia|]. simpl. rewrite Hup.
    rewrite bool_decide_eq_false_2 by done.
    rewrite IH by lia. by rewrite <- app_assoc.
Qed.

Lemma elem_of_concat {A} (x : A) (ls : list (list A)) :
  x ∈ concat ls ↔ ∃ l, l ∈ ls ∧ x ∈ l.
Proof.
  induction ls as [|l ls IH]; simpl.
  - split; [by intros ?%elem_of_nil|by intros (l & ?%elem_of_nil & _)].
  - rewrite elem_of_app, IH. split.
    + intros [Hx|(l' & Hl' & Hx)]; [exists l|exists l']; split; try done;
        [left|by right].
    + intros (l' & [->|Hl']%elem_of_cons & Hx); [by left|right; by exists l'].
Qed.

Lemma length_concat_sum {A} (ls : list (list A)) :
  length (concat ls) = sum_list (length <$> ls).
Proof. induction ls as [|l ls IH]; [done|]. simpl. by rewrite length_app, IH. Qed.

(** ** The add-account flow *)

Section add_facts.
Context `{MapOrder}.

Lemma AddWatchedAccount_ok f s username user_id s' account :
  AddWatchedAccount f s username user_id = (s', Ok account) →
  account = {| ID := next_rowid (ID <$> watched_accounts s);
               Username := username; UserID := user_id |}
  ∧ watched_accounts s' = watched_accounts s ++ [account]
  ∧ following s' = following s
  ∧ follow_events s' = follow_events s.
Proof.
  unfold AddWatchedAccount. destruct (fails f 0); [by inversion 1|].
  case_bool_decide; [by inversion 1|]. by inversion 1.
Qed.

Lemma AddWatchedAccount_events f s username user_id :
  follow_events (AddWatchedAccount f s username user_id).1 = follow_events s.
Proof.
  unfold AddWatchedAccount. destruct (fails f 0); [done|]. by case_bool_decide.
Qed.

End add_facts.

(** * Properties of the pipeline *)

Section pipeline.
Context `{MapOrder}.

(** C2. For every stored snapshot [current] and every fetched list [latest],
    the change-detection step returns [(added, removed)] whose ID sets are
    [latest − current] and [current − latest]; the two are disjoint; and
    diffing a set against itself (the empty set included) gives two empty
    lists. *)
Theorem C2_detectChanges_set_difference (current : gset string) (latest : list string) :
  (list_to_set (detectChanges current latest).1 : gset string)
    = list_to_set latest ∖ current
  ∧ (list_to_set (detectChanges current latest).2 : gset string)
    = current ∖ list_to_set latest
  ∧ (list_to_set (detectChanges current latest).1 : gset string)
    ∩ list_to_set (detectChanges current latest).2 = ∅
  ∧ detectChanges (list_to_set latest) latest = ([], [])
  ∧ detectChanges ∅ [] = ([], []).
Proof.
  pose proof (detectChanges_added current latest) as Ha.
  pose proof (detectChanges_removed current latest) as Hr.
  repeat split.
  - apply set_eq. intros x.
    rewrite elem_of_list_to_set, Ha, elem_of_difference, elem_of_list_to_set. tauto.
  - apply set_eq. intros x.
    rewrite elem_of_list_to_set, Hr, elem_of_difference, elem_of_list_to_set. tauto.
  - apply set_eq. intros x.
    rewrite elem_of_intersection, !elem_of_list_to_set, Ha, Hr.
    rewrite elem_of_empty. tauto.
  - by apply detectChanges_nil.
  - by apply detectChanges_nil.
Qed.

(** C4. After a successful snapshot update of account [acc] with the latest
    list [L], reading the snapshot of [acc] returns exactly the set of [L],
    whatever rows the store held for [acc] before. *)
Theorem C4_snapshot_converges (f : fault) (s s' : Database) (acc : Z) (L : list string) :
  StoreFollowings f s acc L = (s', None) →
  GetCurrentFollowings None s' acc = Ok (list_to_set L).
Proof.
  intros Hstore. unfold GetCurrentFollowings. rewrite fails_None. f_equal.
  apply set_eq. intros x.
  rewrite elem_of_select_followings, (StoreFollowings_following _ _ _ _ _ _ _ Hstore).
  rewrite decide_True by done. by rewrite elem_of_list_to_set.
Qed.

(** C10. [StoreFollowings accID ids], committed or rolled back, changes only
    the following rows of [accID]: the rows of every other account, the
    watched accounts and the follow events are as before. *)
Theorem C10_StoreFollowings_frame (f : fault) (s : Database) (accID : Z)
    (ids : list string) :
  (∀ a x, a ≠ accID →
     (a, x) ∈ following (StoreFollowings f s accID ids).1 ↔ (a, x) ∈ following s)
  ∧ watched_accounts (StoreFollowings f s accID ids).1 = watched_accounts s
  ∧ follow_events (StoreFollowings f s accID ids).1 = follow_events s.
Proof.
  destruct (StoreFollowings f s accID ids) as [s' e] eqn:Hstore. simpl.
  split; [|by eapply StoreFollowings_other_tables].
  intros a x Hne. destruct e as [e|].
  - by apply StoreFollowings_rollback in Hstore as ->.
  - rewrite (StoreFollowings_following _ _ _ _ _ _ _ Hstore).
    by rewrite decide_False.
Qed.

(** C6. When the fetched IDs are, as a set, the stored snapshot of the
    account, the reconciliation step writes nothing and sends nothing: the
    store and the outbox are as before (no event, snapshot untouched, no
    notification), on the cycle's path and on [ProcessFollowingChanges].
    In particular a step that follows a fault-free step with the same
    fetched IDs changes nothing. *)
Theorem C6_no_change_no_write (env : ui.Env) (w : ui.World)
    (account : WatchedAccount) (r : api.FollowingIDsResponse) :
  api.FollowingIDs (ui.api env) (UserID account) = Ok r →
  (list_to_set (api.IDs r) = select_followings (ID account) (ui.w_db w) →
   ui.checkAccount env w account = w
   ∧ ∀ fg fe fs now,
       (ProcessFollowingChanges fg fe fs (ui.w_db w) account (api.IDs r) now).1
       = ui.w_db w)
  ∧ (∀ env0 w0,
       ui.api env0 = ui.api env →
       ui.faults env0 (ID account) = ui.no_faults →
       w = ui.checkAccount env0 w0 account →
       ui.checkAccount env w account = w).
Proof.
  intros Hfetch. split.
  - intros Hsame. split; [by eapply checkAccount_unchanged|].
    intros fg fe fs now. unfold ProcessFollowingChanges, GetCurrentFollowings.
    destruct (fails fg 0); [done|].
    apply detectChanges_nil in Hsame. by rewrite Hsame.
  - intros env0 w0 Hapi Hfaults ->.
    eapply checkAccount_unchanged; [done|]. symmetry.
    eapply checkAccount_processed; [done|]. by rewrite Hapi.
Qed.

(** C8. In a cycle over the watched accounts, an account [Y] whose own fetch
    and storage calls succeed is fetched, diffed, persisted and notified
    whatever happens to the other accounts (upstream failures, storage
    faults at any operation): after the cycle its snapshot is the fetched
    set, its events are extended by the events of its delta, and the posts
    naming it are extended by one post per configured channel for the new
    follows (when follow notifications are on and there are any) and one
    per configured channel for the unfollows (likewise), Discord before
    Telegram, each stating the account, the direction, the number of IDs
    and the first 25 of them with their profile lookups.  An upstream
    failure for an account leaves the world as it was and the loop goes
    on. *)
Theorem C8_isolation (env : ui.Env) (w : ui.World) (Y : WatchedAccount)
    (r : api.FollowingIDsResponse) :
  NoDup (ID <$> watched_accounts (ui.w_db w)) →
  NoDup (Username <$> watched_accounts (ui.w_db w)) →
  Y ∈ watched_accounts (ui.w_db w) →
  ui.faults env (ID Y) = ui.no_faults →
  api.FollowingIDs (ui.api env) (UserID Y) = Ok r →
  let added :=
    (detectChanges (select_followings (ID Y) (ui.w_db w)) (api.IDs r)).1 in
  let removed :=
    (detectChanges (select_followings (ID Y) (ui.w_db w)) (api.IDs r)).2 in
  let post (c : webhook.Channel) (kind : EventType) (ids : list string) :=
    {| webhook.msg_channel := c;
       webhook.msg_kind := kind;
       webhook.msg_username := Username Y;
       webhook.msg_count := length ids;
       webhook.msg_fields :=
         (λ userID, (userID, api.GetUserByID (ui.api env) userID)) <$> take 25 ids |} in
  let posts (kind : EventType) (ids : list string) :=
    match ui.notifications env with
    | None => []
    | Some m =>
        (match webhook.enableDiscord m, webhook.discord m with
         | true, Some d =>
             if bool_decide (webhook.URL d = "") then []
             else [post webhook.Discord kind ids]
         | _, _ => []
         end) ++
        (match webhook.enableTelegram m, webhook.telegram m with
         | true, Some t =>
             if bool_decide (webhook.botToken t = "")
                || bool_decide (webhook.chatID t = "") then []
             else [post webhook.Telegram kind ids]
         | _, _ => []
         end)
    end in
  ui.account_view Y (ui.CheckAccounts env None w)
  = (list_to_set (api.IDs r),
     event_keys_of (ID Y) (ui.w_db w) ++
       delta_keys (ID Y) (ui.clock env (ID Y)) added removed,
     filter (λ m, webhook.msg_username m = Username Y) (ui.w_sent w) ++
       (if ui.EnableFollowNotifications (ui.config env)
           && bool_decide (0 < length added)%nat
        then posts EventTypeFollow added else []) ++
       (if ui.EnableUnfollowNotifications (ui.config env)
           && bool_decide (0 < length removed)%nat
        then posts EventTypeUnfollow removed else []))
  ∧ ∀ X e w0,
      api.FollowingIDs (ui.api env) (UserID X) = Err e →
      ui.checkAccount env w0 X = w0.
Proof.
  intros Hids Hnames HY Hfaults Hfetch added removed post posts. split.
  2: { intros X e w0 HX. unfold ui.checkAccount. by rewrite HX. }
  unfold ui.CheckAccounts, GetWatchedAccounts. rewrite fails_None.
  apply list_elem_of_split in HY as (l1 & l2 & Hsplit). rewrite Hsplit in *.
  rewrite fmap_app, fmap_cons in Hids. rewrite fmap_app, fmap_cons in Hnames.
  apply NoDup_app in Hids as (_ & Hid1 & [Hid2 _]%NoDup_cons).
  apply NoDup_app in Hnames as (_ & Hname1 & [Hname2 _]%NoDup_cons).
  assert (Hother : ∀ l w0,
    (∀ A, A ∈ l → ID A ≠ ID Y ∧ Username A ≠ Username Y) →
    ui.account_view Y (foldl (ui.checkAccount env) w0 l) = ui.account_view Y w0).
  { induction l as [|A l IH]; intros w0 Hl; [done|]. simpl.
    rewrite IH by (intros B HB; apply Hl; by right).
    destruct (Hl A) as [HA1 HA2]; [by left|].
    destruct (checkAccount_other env w0 A Y HA1 HA2) as (Hs & Hk & Hm).
    unfold ui.account_view. by rewrite Hs, Hk, Hm. }
  rewrite foldl_app. simpl. rewrite Hother.
  2: { intros A HA. split.
       - intros Heq. apply Hid2. rewrite <- Heq. by apply list_elem_of_fmap_2.
       - intros Heq. apply Hname2. rewrite <- Heq. by apply list_elem_of_fmap_2. }
  destruct (checkAccount_processed env (foldl (ui.checkAccount env) w l1) Y r
              Hfaults Hfetch) as (Hs & Hk & Hm).
  assert (Hview1 : ui.account_view Y (foldl (ui.checkAccount env) w l1)
                   = ui.account_view Y w).
  { apply Hother. intros A HA. split.
    - intros Heq. apply (Hid1 (ID A)); [by apply list_elem_of_fmap_2|].
      rewrite Heq. left.
    - intros Heq. apply (Hname1 (Username A)); [by apply list_elem_of_fmap_2|].
      rewrite Heq. left. }
  unfold ui.account_view in Hview1 |- *. injection Hview1 as Hs1 Hk1 Hm1.
  rewrite Hs, Hk, Hm, filter_app, Hs1, Hk1, Hm1. do 2 f_equal.
  rewrite filter_all by (intros m Hin; by eapply sendNotifications_username).
  rewrite sendNotifications_attempts. subst posts post added removed.
  destruct (ui.notifications env) as [m|]; [reflexivity|].
  by destruct (_ && _), (_ && _).
Qed.

(** C9. The posts a notification call attempts depend on the manager's
    configuration only, never on the outcome of a post: each configured
    channel is formatted and posted whether or not the other one failed.
    The call returns no error, and a reconciliation step is the same
    whatever the outcomes of the posts. *)
Theorem C9_channels_independent (m : webhook.NotificationManager)
    (post post' : webhook.Post) (client : api.Client) (account : WatchedAccount)
    (ids : list string) (env : ui.Env) (w : ui.World) :
  (webhook.NotifyNewFollows m post client account ids).1
    = webhook.attempts EventTypeFollow m client account ids
  ∧ (webhook.NotifyUnfollows m post client account ids).1
    = webhook.attempts EventTypeUnfollow m client account ids
  ∧ ui.checkAccount (ui.with_post env post') w account
    = ui.checkAccount env w account.
Proof.
  split; [apply NotifyNewFollows_attempts|].
  split; [apply NotifyUnfollows_attempts|].
  unfold ui.checkAccount. simpl.
  destruct (api.FollowingIDs _ _); [|done].
  destruct (GetCurrentFollowings _ _ _); [|done].
  destruct (detectChanges _ _). destruct (hasChanges _ _); [|done].
  destruct (StoreFollowEvents _ _ _ _ _ _) as [s1 [e|]]; [done|].
  destruct (StoreFollowings _ _ _ _) as [s2 [e|]]; [done|].
  by rewrite sendNotifications_with_post.
Qed.

(** C1 (amended). Recording the events and rewriting the snapshot are two
    transactions, each all-or-nothing on its own.  When
    [ProcessFollowingChanges] returns an error, either the store is as
    before (the failure came no later than the event write) or the events
    of the delta are recorded and everything else, the snapshot included,
    is as before (the failure came in the snapshot rewrite).  When it
    returns no error, either nothing changed and the delta was empty, or
    the events of the delta are recorded and the snapshot is the latest
    set: the snapshot is never rewritten without the events. *)
Theorem C1_events_then_snapshot (fg fe fs : fault) (s : Database)
    (account : WatchedAccount) (L : list string) (now : Z) :
  match ProcessFollowingChanges fg fe fs s account L now with
  | (s', Some _) =>
      s' = s ∨
      (following s' = following s ∧ watched_accounts s' = watched_accounts s ∧
       event_key <$> follow_events s'
       = (event_key <$> follow_events s) ++
         delta_keys (ID account) now
           (detectChanges (select_followings (ID account) s) L).1
           (detectChanges (select_followings (ID account) s) L).2)
  | (s', None) =>
      (s' = s ∧ detectChanges (select_followings (ID account) s) L = ([], [])) ∨
      (select_followings (ID account) s' = list_to_set L ∧
       event_key <$> follow_events s'
       = (event_key <$> follow_events s) ++
         delta_keys (ID account) now
           (detectChanges (select_followings (ID account) s) L).1
           (detectChanges (select_followings (ID account) s) L).2)
  end
  ∧ (∀ f acc follows unfollows,
       match StoreFollowEvents f s acc follows unfollows now with
       | (s', Some _) => s' = s
       | (_, None) => True
       end)
  ∧ (∀ f acc ids,
       match StoreFollowings f s acc ids with
       | (s', Some _) => s' = s
       | (_, None) => True
       end).
Proof.
  split; [|split].
  - unfold ProcessFollowingChanges, GetCurrentFollowings.
    destruct (fails fg 0); [by left|].
    destruct (detectChanges _ _) as [newFollows unfollows] eqn:Hd. simpl.
    destruct (hasChanges _ _) eqn:Hch.
    + destruct (StoreFollowEvents _ _ _ _ _ _) as [s1 [e|]] eqn:Hev.
      { left. by apply StoreFollowEvents_rollback in Hev. }
      pose proof (StoreFollowEvents_keys _ _ _ _ _ _ _ Hev) as Hkeys.
      apply StoreFollowEvents_spec in Hev as (_ & Hrows & Haccs).
      destruct (StoreFollowings _ _ _ _) as [s2 [e|]] eqn:Hst.
      * apply StoreFollowings_rollback in Hst as ->. right. done.
      * right. pose proof (StoreFollowings_other_tables _ _ _ _ _ _ Hst) as [_ Hevs].
        split; [|by rewrite Hevs].
        apply set_eq. intros x.
        rewrite elem_of_select_followings,
          (StoreFollowings_following _ _ _ _ _ _ _ Hst), decide_True by done.
        by rewrite elem_of_list_to_set.
    + left. by apply hasChanges_false in Hch as [-> ->].
  - intros f acc follows unfollows.
    destruct (StoreFollowEvents _ _ _ _ _ _) as [s' [e|]] eqn:Hev; [|done].
    by apply StoreFollowEvents_rollback in Hev.
  - intros f acc ids.
    destruct (StoreFollowings _ _ _ _) as [s' [e|]] eqn:Hst; [|done].
    by apply StoreFollowings_rollback in Hst.
Qed.

(** C7 (amended). [RemoveWatchedAccount] is one transaction: on an error
    the store is as before; on success the account row with that ID and all
    following rows of that ID are gone, the other accounts, the other
    following rows and the follow events stay.  Without a storage fault it
    returns no error, whether or not an account with that ID exists. *)
Theorem C7_RemoveWatchedAccount_atomic (f : fault) (s : Database) (id : Z) :
  (RemoveWatchedAccount None s id).2 = None
  ∧ match RemoveWatchedAccount f s id with
    | (s', Some _) => s' = s
    | (s', None) =>
        watched_accounts s' = filter (λ a, ID a ≠ id) (watched_accounts s)
        ∧ (∀ a x, (a, x) ∈ following s' ↔ a ≠ id ∧ (a, x) ∈ following s)
        ∧ follow_events s' = follow_events s
    end.
Proof.
  split; [done|].
  destruct (RemoveWatchedAccount f s id) as [s' [e|]] eqn:Hrm.
  - by apply transaction_atomic in Hrm.
  - unfold RemoveWatchedAccount in Hrm.
    apply transaction_commit in Hrm as [k Hbody].
    apply tx_bind_ok in Hbody as ([] & k1 & s1 & ->%exec_ok & ->%exec_ok).
    simpl. split; [done|]. split; [|done].
    intros a x. rewrite elem_of_filter. simpl. tauto.
Qed.

(** C3 (amended). A successful add-account flow appends the account, makes
    its snapshot the fetched initial following set, records no event and
    sends no notification; and a reconciliation step for the new account
    that fetches the same IDs again finds no change, so that no Follow
    batch is recorded later either. *)
Theorem C3_seeding_stores_snapshot_only (env : ui.Env) (fa fs : fault)
    (w w' : ui.World) (username : string) :
  ui.handleAddAccount env fa fs w username = (w', None) →
  follow_events (ui.w_db w') = follow_events (ui.w_db w)
  ∧ ui.w_sent w' = ui.w_sent w
  ∧ ∃ user r account,
      api.GetUser (ui.api env) (ui.TrimPrefix_at username) = Ok user
      ∧ api.FollowingIDs (ui.api env) (api.RestID user) = Ok r
      ∧ account = {| ID := next_rowid (ID <$> watched_accounts (ui.w_db w));
                     Username := api.ScreenName user;
                     UserID := api.RestID user |}
      ∧ watched_accounts (ui.w_db w') = watched_accounts (ui.w_db w) ++ [account]
      ∧ select_followings (ID account) (ui.w_db w') = list_to_set (api.IDs r)
      ∧ ∀ env1, ui.api env1 = ui.api env → ui.checkAccount env1 w' account = w'.
Proof.
  unfold ui.handleAddAccount. intros Hadd.
  destruct (api.GetUser _ _) as [user|e] eqn:Huser; [|by inversion Hadd].
  destruct (AddWatchedAccount _ _ _ _) as [s1 [account|e]] eqn:Hacc;
    [|by inversion Hadd].
  apply AddWatchedAccount_ok in Hacc as (Haccount & Haccs & Hrows & Hevs).
  destruct (api.FollowingIDs _ _) as [r|e] eqn:Hfetch; [|by inversion Hadd].
  destruct (StoreFollowings _ _ _ _) as [s2 [e|]] eqn:Hst; inversion Hadd; subst w'.
  simpl. pose proof (StoreFollowings_other_tables _ _ _ _ _ _ Hst) as [Haccs2 Hevs2].
  assert (Hsnap : select_followings (ID account) s2 = list_to_set (api.IDs r)).
  { apply set_eq. intros x.
    rewrite elem_of_select_followings,
      (StoreFollowings_following _ _ _ _ _ _ _ Hst), decide_True by done.
    by rewrite elem_of_list_to_set. }
  split; [by rewrite Hevs2|]. split; [done|].
  exists user, r, account. rewrite Haccount in Hfetch. simpl in Hfetch.
  split; [done|]. split; [done|]. split; [done|].
  split; [by rewrite Haccs2|]. split; [done|].
  intros env1 Hapi. eapply checkAccount_unchanged.
  - rewrite Hapi, Haccount. simpl. exact Hfetch.
  - simpl. by rewrite Hsnap.
Qed.

(** C5 (amended). When the upstream serves the pages [pages] for a user,
    the last one with a zero [next_cursor], one call of [GetFollowingIDs]
    with fuel for that many requests returns the pages' IDs concatenated
    in page order: every ID of every page and nothing else, as many
    entries as the pages have together. *)
Theorem C5_pagination_concatenates (up : api.Upstream) (userID : string)
    (pages : list (list string)) (fuel : nat) :
  api.serves up userID "0" pages →
  (length pages ≤ fuel)%nat →
  ∃ r, api.GetFollowingIDs fuel up userID = Some (Ok r)
       ∧ api.IDs r = concat pages
       ∧ (∀ x, x ∈ api.IDs r ↔ ∃ page, page ∈ pages ∧ x ∈ page)
       ∧ length (api.IDs r) = sum_list (length <$> pages).
Proof.
  intros Hserves Hfuel. eexists. split.
  - unfold api.GetFollowingIDs.
    by apply (GetFollowingIDs_loop_serves _ _ _ _ Hserves fuel []).
  - simpl. split; [done|]. split.
    + intros x. apply elem_of_concat.
    + apply length_concat_sum.
Qed.

End pipeline.

(** C4 at store1: X's snapshot {u1,u2,u3} rewritten to {u2,u3,u4}. *)
Lemma C4_snapshot_converges_witness :
  StoreFollowings None examples.store1 1 examples.latestX
    = ((StoreFollowings None examples.store1 1 examples.latestX).1, None)
  ∧ GetCurrentFollowings None
      (StoreFollowings None examples.store1 1 examples.latestX).1 1
    = Ok (list_to_set examples.latestX).
Proof.
  split; [by vm_compute|].
  apply (C4_snapshot_converges None examples.store1). by vm_compute.
Defined.

(** C1 as stated fails: the snapshot rewrite of X fails at [Begin], after
    the events of the delta (u4 followed, u1 unfollowed) were committed.
    The call returns an error, X's snapshot is as before, and the store now
    holds two events. *)
Lemma C1_counterexample :
  let res := ProcessFollowingChanges None None (Some 0%nat)
               examples.store1 examples.accountX examples.latestX 7 in
  res.2 = Some "updating followings: beginning transaction"
  ∧ select_followings 1 res.1 = select_followings 1 examples.store1
  ∧ event_key <$> follow_events res.1
    = [(1, "u4", EventTypeFollow, 7); (1, "u1", EventTypeUnfollow, 7)]
  ∧ res.1 ≠ examples.store1.
Proof.
  vm_compute. repeat split; try reflexivity. intros Heq. discriminate Heq.
Qed.

(** C7 as stated fails: no account has ID 99, and the call returns [nil]
    with the store as it was. *)
Lemma C7_counterexample :
  (99 ∉ ID <$> watched_accounts examples.store1)
  ∧ RemoveWatchedAccount None examples.store1 99 = (examples.store1, None).
Proof.
  split; [|by vm_compute].
  intros Hin. apply list_elem_of_fmap in Hin as (a & Ha & Hin).
  apply list_elem_of_singleton in Hin as ->. discriminate Ha.
Qed.

(** C3 as stated fails: "z" is added to an empty store and the fetch returns
    {u1,u2}; the flow succeeds, the snapshot of the new account (ID 1) is
    {u1,u2}, and no Follow event has been recorded. *)
Lemma C3_counterexample :
  let res := ui.handleAddAccount examples.env None None
               (examples.world examples.emptyStore) "@z" in
  res.2 = None
  ∧ select_followings 1 (ui.w_db res.1) = {[ "u1"; "u2" ]}
  ∧ follow_events (ui.w_db res.1) = []
  ∧ length (follow_events (ui.w_db res.1)) ≠ 2%nat.
Proof. vm_compute. repeat split; try reflexivity. intros Heq. discriminate Heq. Qed.

(** C5 as stated fails: the upstream serves two pages that share "u2"; the
    call returns four entries, "u2" twice. *)
Lemma C5_counterexample :
  api.serves examples.overlapping "100" "0" [["u1"; "u2"]; ["u2"; "u3"]]
  ∧ api.GetFollowingIDs 2 examples.overlapping "100"
    = Some (Ok {| api.IDs := ["u1"; "u2"; "u2"; "u3"];
                  api.NextCursor := 0; api.NextCursorStr := "" |})
  ∧ ¬ NoDup ["u1"; "u2"; "u2"; "u3"].
Proof.
  split; [|split; [reflexivity|]].
  - apply (api.serves_more _ _ "0"
             {| api.IDs := ["u1"; "u2"]; api.NextCursor := 7;
                api.NextCursorStr := "7" |}); [reflexivity|done|].
    apply (api.serves_last _ _ "7"
             {| api.IDs := ["u2"; "u3"]; api.NextCursor := 0;
                api.NextCursorStr := "0" |}); reflexivity.
  - intros Hnd. apply NoDup_cons in Hnd as [_ Hnd].
    apply NoDup_cons in Hnd as [Hnotin _]. apply Hnotin. left.
Qed.

(** C3 (amended) at the store of the counterexample. *)
Lemma C3_seeding_stores_snapshot_only_witness :
  let res := ui.handleAddAccount examples.env None None
               (examples.world examples.emptyStore) "@z" in
  res = (res.1, None)
  ∧ follow_events (ui.w_db res.1) = []
  ∧ ui.w_sent res.1 = [].
Proof.
  split; [by vm_compute|].
  destruct (C3_seeding_stores_snapshot_only examples.env None None
              (examples.world examples.emptyStore)
              (ui.handleAddAccount examples.env None None
                 (examples.world examples.emptyStore) "@z").1 "@z")
    as (Hev & Hsent & _); [by vm_compute|].
  split; [exact Hev|exact Hsent].
Defined.

(** C5 (amended) at the two overlapping pages. *)
Lemma C5_pagination_concatenates_witness :
  api.serves examples.overlapping "100" "0" [["u1"; "u2"]; ["u2"; "u3"]]
  ∧ (length [["u1"; "u2"]; ["u2"; "u3"]] ≤ 2)%nat
  ∧ ∃ r, api.GetFollowingIDs 2 examples.overlapping "100" = Some (Ok r)
         ∧ api.IDs r = ["u1"; "u2"; "u2"; "u3"].
Proof.
  assert (Hserves : api.serves examples.overlapping "100" "0"
                      [["u1"; "u2"]; ["u2"; "u3"]]).
  { apply (api.serves_more _ _ "0"
             {| api.IDs := ["u1"; "u2"]; api.NextCursor := 7;
                api.NextCursorStr := "7" |}); [reflexivity|done|].
    apply (api.serves_last _ _ "7"
             {| api.IDs := ["u2"; "u3"]; api.NextCursor := 0;
                api.NextCursorStr := "0" |}); reflexivity. }
  split; [exact Hserves|]. split; [simpl; lia|].
  destruct (C5_pagination_concatenates examples.overlapping "100"
              [["u1"; "u2"]; ["u2"; "u3"]] 2 Hserves)
    as (r & Hr & Hids & _); [simpl; lia|].
  exists r. split; [exact Hr|exact Hids].
Defined.

(** C6 at X's store after the update (the fetch returns the stored set),
    and at two steps in a row from X's first store. *)
Lemma C6_no_change_no_write_witness :
  api.FollowingIDs (ui.api examples.env) (UserID examples.accountX)
    = Ok {| api.IDs := examples.latestX; api.NextCursor := 0;
            api.NextCursorStr := "" |}
  ∧ list_to_set examples.latestX = select_followings 1 examples.store3
  ∧ ui.checkAccount examples.env (examples.world examples.store3) examples.accountX
    = examples.world examples.store3
  ∧ ui.checkAccount examples.env
      (ui.checkAccount examples.env (examples.world examples.store1)
         examples.accountX) examples.accountX
    = ui.checkAccount examples.env (examples.world examples.store1)
        examples.accountX.
Proof.
  split; [reflexivity|]. split; [by vm_compute|]. split.
  - apply (C6_no_change_no_write examples.env (examples.world examples.store3)
             examples.accountX
             {| api.IDs := examples.latestX; api.NextCursor := 0;
                api.NextCursorStr := "" |}); [reflexivity|by vm_compute].
  - apply (C6_no_change_no_write examples.env
             (ui.checkAccount examples.env (examples.world examples.store1)
                examples.accountX)
             examples.accountX
             {| api.IDs := examples.latestX; api.NextCursor := 0;
                api.NextCursorStr := "" |} eq_refl)
      with (env0 := examples.env) (w0 := examples.world examples.store1);
      reflexivity.
Defined.

(** C8 at the store of X and Y, the upstream failing for X and every post
    refused: Y's snapshot becomes {v1,v2}, the Follow event for v2 is
    recorded, and both channels are posted the new follow. *)
Lemma C8_isolation_witness :
  NoDup (ID <$> watched_accounts examples.store2)
  ∧ NoDup (Username <$> watched_accounts examples.store2)
  ∧ examples.accountY ∈ watched_accounts examples.store2
  ∧ api.FollowingIDs (ui.api examples.envXdown) (UserID examples.accountX)
    = Err "API error: status=503"
  ∧ ui.account_view examples.accountY
      (ui.CheckAccounts examples.envXdown None (examples.world examples.store2))
    = ({[ "v1"; "v2" ]},
       [(2, "v2", EventTypeFollow, 7)],
       [{| webhook.msg_channel := webhook.Discord;
           webhook.msg_kind := EventTypeFollow;
           webhook.msg_username := "y";
           webhook.msg_count := 1;
           webhook.msg_fields := [("v2", Err "API error: status=404")] |};
        {| webhook.msg_channel := webhook.Telegram;
           webhook.msg_kind := EventTypeFollow;
           webhook.msg_username := "y";
           webhook.msg_count := 1;
           webhook.msg_fields := [("v2", Err "API error: status=404")] |}]).
Proof.
  assert (Hids : NoDup (ID <$> watched_accounts examples.store2)).
  { simpl. apply NoDup_cons. split; [|apply NoDup_singleton].
    intros Hin. apply list_elem_of_singleton in Hin. discriminate Hin. }
  assert (Hnames : NoDup (Username <$> watched_accounts examples.store2)).
  { simpl. apply NoDup_cons. split; [|apply NoDup_singleton].
    intros Hin. apply list_elem_of_singleton in Hin. discriminate Hin. }
  assert (HY : examples.accountY ∈ watched_accounts examples.store2).
  { simpl. right. left. }
  split; [exact Hids|]. split; [exact Hnames|]. split; [exact HY|].
  split; [reflexivity|].
  destruct (C8_isolation examples.envXdown (examples.world examples.store2)
              examples.accountY
              {| api.IDs := ["v1"; "v2"]; api.NextCursor := 0;
                 api.NextCursorStr := "" |} Hids Hnames HY eq_refl eq_refl)
    as [Hview _].
  rewrite Hview. by vm_compute.
Defined.

(** * Further properties

    Properties of the embedded code beyond the pipeline properties above:
    the account table, the event log, the snapshot rewrite, the cycle, the
    add and remove flows, pagination, the quota counter, the notification
    manager and the terminal model. *)

(** ** Auxiliary facts *)

Lemma next_rowid_above ids : Forall (λ i, i < next_rowid ids) ids.
Proof.
  unfold next_rowid. induction ids as [|i ids IH]; [constructor|].
  simpl. constructor; [lia|].
  eapply Forall_impl; [exact IH|]. simpl. intros j Hj. lia.
Qed.

Lemma next_rowid_fresh ids : next_rowid ids ∉ ids.
Proof.
  intros Hin. pose proof (next_rowid_above ids) as Hall.
  rewrite Forall_forall in Hall. specialize (Hall _ Hin). lia.
Qed.

Lemma database_eq s s' :
  watched_accounts s = watched_accounts s' →
  following s = following s' →
  follow_events s = follow_events s' →
  s = s'.
Proof. destruct s, s'. simpl. by intros -> -> ->. Qed.

Lemma filter_accounts_fresh (l : list WatchedAccount) id :
  id ∉ (ID <$> l) → filter (λ a, ID a ≠ id) l = l.
Proof.
  intros Hfresh. apply filter_all. intros a Ha Heq. apply Hfresh.
  rewrite <- Heq. by apply list_elem_of_fmap_2.
Qed.

Lemma filter_accounts_added (l : list WatchedAccount) username user_id :
  filter (λ a, ID a ≠ next_rowid (ID <$> l))
    (l ++ [{| ID := next_rowid (ID <$> l); Username := username;
              UserID := user_id |}]) = l.
Proof.
  rewrite filter_app, filter_accounts_fresh by apply next_rowid_fresh.
  rewrite filter_cons, decide_False, filter_nil, app_nil_r; [done|].
  simpl. by intros Hne.
Qed.

Lemma RemoveWatchedAccount_no_fault s id :
  RemoveWatchedAccount None s id
  = (delete_account id (delete_followings_of id s), None).
Proof. done. Qed.

Lemma AddWatchedAccount_taken f s username user_id :
  username ∈ (Username <$> watched_accounts s) →
  ∃ e, AddWatchedAccount f s username user_id = (s, Err e).
Proof.
  intros Hdup. unfold AddWatchedAccount. destruct (fails f 0); [by eexists|].
  rewrite bool_decide_eq_true_2 by done. by eexists.
Qed.

Lemma StronglySorted_snoc_lt (l : list Z) x :
  StronglySorted Z.lt l → Forall (λ y, y < x) l → StronglySorted Z.lt (l ++ [x]).
Proof.
  induction 1 as [|y l Hl IH Hy]; intros Hall; simpl.
  - repeat constructor.
  - apply Forall_cons in Hall as [Hyx Hall]. constructor; [by apply IH|].
    apply Forall_app. split; [done|]. by constructor.
Qed.

Lemma insert_event_prefix acc ty now id s :
  follow_events s `prefix_of` follow_events (insert_event acc ty now id s).
Proof. simpl. by apply prefix_app_r. Qed.

Lemma insert_event_sorted acc ty now id s :
  StronglySorted Z.lt (ev_ID <$> follow_events s) →
  StronglySorted Z.lt (ev_ID <$> follow_events (insert_event acc ty now id s)).
Proof.
  intros Hs. simpl. rewrite fmap_app. simpl.
  apply StronglySorted_snoc_lt; [done|]. apply next_rowid_above.
Qed.

Lemma StoreFollowEvents_prefix f s acc follows unfollows now s' e :
  StoreFollowEvents f s acc follows unfollows now = (s', e) →
  follow_events s `prefix_of` follow_events s'.
Proof.
  destruct e as [e|].
  - by intros ->%StoreFollowEvents_rollback.
  - intros ->%StoreFollowEvents_commit.
    apply (run_stmts_frame (λ s', follow_events s `prefix_of` follow_events s')).
    { intros x s0 Hp. etrans; [exact Hp|apply insert_event_prefix]. }
    apply (run_stmts_frame (λ s', follow_events s `prefix_of` follow_events s')).
    { intros x s0 Hp. etrans; [exact Hp|apply insert_event_prefix]. }
    done.
Qed.

Lemma detectChanges_empty `{MapOrder} (latest : list string) :
  detectChanges ∅ latest = (latest, []).
Proof.
  rewrite detectChanges_filter. f_equal.
  - apply filter_all. set_solver.
  - apply filter_none. intros x Hx%elem_of_range. set_solver.
Qed.

(** ** The account table *)

(** X2. A successful [AddWatchedAccount] gives the new account an ID larger
    than every ID in the table and appends it as the last row; IDs and
    usernames that were pairwise distinct stay so. *)
Theorem AddWatchedAccount_fresh (f : fault) (s s' : Database)
    (username user_id : string) (account : WatchedAccount) :
  NoDup (ID <$> watched_accounts s) →
  NoDup (Username <$> watched_accounts s) →
  AddWatchedAccount f s username user_id = (s', Ok account) →
  Forall (λ a, ID a < ID account) (watched_accounts s)
  ∧ NoDup (ID <$> watched_accounts s')
  ∧ NoDup (Username <$> watched_accounts s')
  ∧ GetWatchedAccounts None s' = Ok (watched_accounts s ++ [account]).
Proof.
  intros Hids Hnames Hadd.
  assert (Hfresh : username ∉ Username <$> watched_accounts s).
  { unfold AddWatchedAccount in Hadd. destruct (fails f 0); [done|].
    by case_bool_decide. }
  apply AddWatchedAccount_ok in Hadd as (-> & Haccs & _ & _). simpl in *.
  split; [|split; [|split]].
  - pose proof (next_rowid_above (ID <$> watched_accounts s)) as Hall.
    by apply Forall_fmap in Hall.
  - rewrite Haccs, fmap_app. simpl. apply NoDup_app. split; [done|]. split.
    + intros i Hi ->%list_elem_of_singleton. by apply next_rowid_fresh in Hi.
    + apply NoDup_singleton.
  - rewrite Haccs, fmap_app. simpl. apply NoDup_app. split; [done|]. split.
    + by intros u Hu ->%list_elem_of_singleton.
    + apply NoDup_singleton.
  - unfold GetWatchedAccounts. by rewrite fails_None, Haccs.
Qed.

Lemma AddWatchedAccount_fresh_witness :
  GetWatchedAccounts None (AddWatchedAccount None examples.store1 "z" "300").1
  = Ok [examples.accountX; {| ID := 2; Username := "z"; UserID := "300" |}].
Proof.
  apply (AddWatchedAccount_fresh None examples.store1
           (AddWatchedAccount None examples.store1 "z" "300").1 "z" "300"
           {| ID := 2; Username := "z"; UserID := "300" |}).
  - apply NoDup_singleton.
  - apply NoDup_singleton.
  - reflexivity.
Defined.

(** X3. Removing the account that was just added undoes the addition: when
    no following row carries the new ID, the store is the one before. *)
Theorem Add_then_Remove (s s1 : Database) (username user_id : string)
    (account : WatchedAccount) :
  (∀ x, (next_rowid (ID <$> watched_accounts s), x) ∉ following s) →
  AddWatchedAccount None s username user_id = (s1, Ok account) →
  RemoveWatchedAccount None s1 (ID account) = (s, None).
Proof.
  intros Hrows (-> & Haccs & Hfol & Hevs)%AddWatchedAccount_ok.
  rewrite RemoveWatchedAccount_no_fault. f_equal. simpl in *.
  apply database_eq; simpl.
  - by rewrite Haccs, filter_accounts_added.
  - rewrite Hfol. apply set_eq. intros [a x]. rewrite elem_of_filter. simpl.
    split; [tauto|]. intros Hin. split; [|done]. intros ->. by eapply Hrows.
  - done.
Qed.

Lemma Add_then_Remove_witness :
  RemoveWatchedAccount None (AddWatchedAccount None examples.store1 "z" "300").1 2
  = (examples.store1, None).
Proof.
  apply (Add_then_Remove examples.store1 _ "z" "300"
           {| ID := 2; Username := "z"; UserID := "300" |}); [|reflexivity].
  intros x. change (next_rowid (ID <$> watched_accounts examples.store1)) with 2.
  unfold examples.store1. simpl. set_solver.
Defined.

(** X4. IDs are reused: after the account added last is removed, the next
    account added gets the same ID, and every event recorded under that ID
    in the meantime is still in the log. *)
Theorem rowid_reuse (s s1 s1' s2 : Database) (username user_id : string)
    (account : WatchedAccount) (username' user_id' : string) :
  AddWatchedAccount None s username user_id = (s1, Ok account) →
  watched_accounts s1' = watched_accounts s1 →
  RemoveWatchedAccount None s1' (ID account) = (s2, None) →
  username' ∉ (Username <$> watched_accounts s) →
  ∃ s3 account',
    AddWatchedAccount None s2 username' user_id' = (s3, Ok account')
    ∧ ID account' = ID account
    ∧ follow_events s3 = follow_events s1'.
Proof.
  intros (-> & Haccs & _ & _)%AddWatchedAccount_ok Hsame Hrm Hfresh.
  rewrite RemoveWatchedAccount_no_fault in Hrm. inversion Hrm as [Hs2]. clear Hrm.
  simpl in *.
  assert (Haccs2 : filter (λ a, ID a ≠ next_rowid (ID <$> watched_accounts s))
                     (watched_accounts s1') = watched_accounts s).
  { by rewrite Hsame, Haccs, filter_accounts_added. }
  unfold AddWatchedAccount. rewrite fails_None. simpl. rewrite Haccs2.
  rewrite bool_decide_eq_false_2 by done.
  eexists _, _. split; [done|]. by split.
Qed.

Lemma rowid_reuse_witness :
  ∃ s3 account',
    AddWatchedAccount None
      (RemoveWatchedAccount None
         (StoreFollowEvents None
            (AddWatchedAccount None examples.store1 "z" "300").1 2 ["v"] [] 7).1
         2).1 "w" "400"
    = (s3, Ok account')
    ∧ ID account' = 2
    ∧ length (follow_events s3) = 1%nat.
Proof.
  destruct (rowid_reuse examples.store1
              (AddWatchedAccount None examples.store1 "z" "300").1
              (StoreFollowEvents None
                 (AddWatchedAccount None examples.store1 "z" "300").1 2 ["v"] [] 7).1
              (RemoveWatchedAccount None
                 (StoreFollowEvents None
                    (AddWatchedAccount None examples.store1 "z" "300").1 2 ["v"] [] 7).1
                 2).1
              "z" "300" {| ID := 2; Username := "z"; UserID := "300" |} "w" "400")
    as (s3 & account' & Hadd & Hid & Hev).
  - reflexivity.
  - reflexivity.
  - reflexivity.
  - simpl. intros Hin. apply list_elem_of_singleton in Hin. discriminate Hin.
  - exists s3, account'. split; [exact Hadd|]. split; [exact Hid|].
    rewrite Hev. reflexivity.
Defined.

(** ** The event log *)

(** X5. [StoreFollowEvents], committed or rolled back, never rewrites or
    drops a stored event: the old log is a prefix of the new one; and row
    ids that were strictly increasing in log order still are. *)
Theorem StoreFollowEvents_append_only (f : fault) (s : Database) (acc : Z)
    (follows unfollows : list string) (now : Z) :
  follow_events s `prefix_of`
    follow_events (StoreFollowEvents f s acc follows unfollows now).1
  ∧ (StronglySorted Z.lt (ev_ID <$> follow_events s) →
     StronglySorted Z.lt
       (ev_ID <$> follow_events (StoreFollowEvents f s acc follows unfollows now).1)).
Proof.
  destruct (StoreFollowEvents f s acc follows unfollows now) as [s' [e|]] eqn:Hev.
  - by apply StoreFollowEvents_rollback in Hev as ->.
  - split; [by eapply StoreFollowEvents_prefix|].
    apply StoreFollowEvents_commit in Hev as ->. simpl. intros Hs.
    apply (run_stmts_frame (λ s', StronglySorted Z.lt (ev_ID <$> follow_events s'))).
    { intros x s0. apply insert_event_sorted. }
    apply (run_stmts_frame (λ s', StronglySorted Z.lt (ev_ID <$> follow_events s'))).
    { intros x s0. apply insert_event_sorted. }
    done.
Qed.

Lemma StoreFollowEvents_append_only_witness :
  StronglySorted Z.lt
    (ev_ID <$> follow_events
       (StoreFollowEvents None examples.store1 1 ["u4"] ["u1"] 7).1).
Proof.
  apply (StoreFollowEvents_append_only None examples.store1 1 ["u4"] ["u1"] 7).
  simpl. constructor.
Defined.

(** ** The snapshot rewrite *)

Section snapshot_extras.
Context `{MapOrder}.

(** X6. [StoreFollowings] is idempotent: after a committed rewrite with the
    list [L], a second rewrite with [L] commits and leaves the store as it
    is. *)
Theorem StoreFollowings_idempotent (f : fault) (s s1 : Database) (acc : Z)
    (L : list string) :
  StoreFollowings f s acc L = (s1, None) →
  StoreFollowings None s1 acc L = (s1, None).
Proof.
  intros Hst. destruct (StoreFollowings_no_fault s1 acc L) as [s2 Hst2].
  rewrite Hst2. f_equal.
  pose proof (StoreFollowings_other_tables _ _ _ _ _ _ Hst2) as [Ha He].
  apply database_eq; [done| |done].
  apply set_eq. intros [a x].
  rewrite (StoreFollowings_following _ _ _ _ _ _ _ Hst2).
  destruct (decide (a = acc)) as [->|Hne]; [|done].
  rewrite (StoreFollowings_following _ _ _ _ _ _ _ Hst). by rewrite decide_True.
Qed.

(** X7. The store after [StoreFollowings] depends on the IDs passed only as
    a set: order and repetitions in the list make no difference. *)
Theorem StoreFollowings_set_only (s : Database) (acc : Z) (L L' : list string) :
  (list_to_set L : gset string) = list_to_set L' →
  StoreFollowings None s acc L = StoreFollowings None s acc L'.
Proof.
  intros Hset.
  destruct (StoreFollowings_no_fault s acc L) as [s1 Hst1].
  destruct (StoreFollowings_no_fault s acc L') as [s2 Hst2].
  rewrite Hst1, Hst2. f_equal.
  pose proof (StoreFollowings_other_tables _ _ _ _ _ _ Hst1) as [Ha1 He1].
  pose proof (StoreFollowings_other_tables _ _ _ _ _ _ Hst2) as [Ha2 He2].
  apply database_eq; [congruence| |congruence].
  apply set_eq. intros [a x].
  rewrite (StoreFollowings_following _ _ _ _ _ _ _ Hst1),
    (StoreFollowings_following _ _ _ _ _ _ _ Hst2).
  destruct (decide (a = acc)); [|done].
  by rewrite <- !(elem_of_list_to_set (C := gset string)), Hset.
Qed.

(** ** Change detection *)

(** X8. The added list is the fetched list without the entries that are in
    the snapshot: order and repetitions of the fetched list are kept (it is
    a sublist of it, free of duplicates when the fetched list is); the
    removed list is free of duplicates and has as many entries as
    [current − latest] has elements. *)
Theorem detectChanges_shape (current : gset string) (latest : list string) :
  (detectChanges current latest).1 = filter (λ id, id ∉ current) latest
  ∧ (∀ id, id ∉ current →
       length (filter (λ x, x = id) (detectChanges current latest).1)
       = length (filter (λ x, x = id) latest))
  ∧ (detectChanges current latest).1 `sublist_of` latest
  ∧ NoDup (detectChanges current latest).2
  ∧ length (detectChanges current latest).2
    = size (current ∖ (list_to_set latest : gset string))
  ∧ (NoDup latest → NoDup (detectChanges current latest).1).
Proof.
  rewrite detectChanges_filter. simpl.
  assert (Hnd : NoDup (filter (λ id, id ∉ (list_to_set latest : gset string))
                         (range current))).
  { apply NoDup_filter. rewrite (range_perm current). apply NoDup_elements. }
  split; [done|]. split.
  { intros id Hid. f_equal. clear Hnd.
    induction latest as [|x l IH]; [done|].
    rewrite (filter_cons (λ id0, id0 ∉ current)).
    destruct (decide (x ∉ current)) as [Hx|Hx].
    - rewrite !(filter_cons (λ x0, x0 = id)). by rewrite IH.
    - rewrite IH, (filter_cons (λ x0, x0 = id)).
      rewrite decide_False; [done|]. intros ->. done. }
  split; [apply sublist_filter|]. split; [done|]. split.
  - unfold size, set_size. simpl. apply Permutation_length.
    apply NoDup_Permutation; [done|apply NoDup_elements|].
    intros x. rewrite list_elem_of_filter, elem_of_range, elem_of_elements.
    set_solver.
  - intros Hl. by apply NoDup_filter.
Qed.

End snapshot_extras.

(** X9. A retry after a failed snapshot rewrite records the delta a second
    time: when [ProcessFollowingChanges] returned an error after its events
    were committed, a fault-free call with the same fetched list succeeds
    and appends the events of the delta once more, the map iterated in
    whatever order that call takes: the same follows, and the same
    unfollows up to their order. *)
Theorem retry_records_delta_again (O1 O2 : MapOrder) (fg fe fs : fault)
    (s s1 : Database) (account : WatchedAccount) (L : list string)
    (now now' : Z) (e : error) :
  @ProcessFollowingChanges O1 fg fe fs s account L now = (s1, Some e) →
  s1 ≠ s →
  ∃ s2,
    @ProcessFollowingChanges O2 None None None s1 account L now' = (s2, None)
    ∧ event_key <$> follow_events s2
      = (event_key <$> follow_events s)
        ++ delta_keys (ID account) now
             (@detectChanges O1 (select_followings (ID account) s) L).1
             (@detectChanges O1 (select_followings (ID account) s) L).2
        ++ delta_keys (ID account) now'
             (@detectChanges O2 (select_followings (ID account) s) L).1
             (@detectChanges O2 (select_followings (ID account) s) L).2
    ∧ (@detectChanges O2 (select_followings (ID account) s) L).1
      = (@detectChanges O1 (select_followings (ID account) s) L).1
    ∧ (@detectChanges O2 (select_followings (ID account) s) L).2
      ≡ₚ (@detectChanges O1 (select_followings (ID account) s) L).2
    ∧ (@detectChanges O1 (select_followings (ID account) s) L).1
        ++ (@detectChanges O1 (select_followings (ID account) s) L).2 ≠ [].
Proof.
  unfold ProcessFollowingChanges at 1. unfold GetCurrentFollowings.
  destruct (fails fg 0); [by intros [= <- _]|].
  destruct (@detectChanges O1 _ _) as [newFollows unfollows] eqn:Hd. simpl.
  destruct (hasChanges _ _) eqn:Hch; [|by intros [= <- _]].
  destruct (StoreFollowEvents _ _ _ _ _ _) as [s0 [e0|]] eqn:Hev.
  { apply StoreFollowEvents_rollback in Hev as ->. by intros [= <- _]. }
  destruct (@StoreFollowings O1 _ _ _ _) as [s0' [e0|]] eqn:Hst; [|done].
  apply StoreFollowings_rollback in Hst as ->.
  intros [= -> _] _.
  pose proof (StoreFollowEvents_keys _ _ _ _ _ _ _ Hev) as Hkeys.
  apply StoreFollowEvents_spec in Hev as (_ & Hrows & _).
  assert (Hsel : select_followings (ID account) s1 = select_followings (ID account) s).
  { apply select_followings_ext. intros x. by rewrite Hrows. }
  assert (Hadded : (@detectChanges O2 (select_followings (ID account) s) L).1
                   = newFollows).
  { rewrite (@detectChanges_filter O2).
    rewrite (@detectChanges_filter O1) in Hd. by injection Hd as <- _. }
  assert (Hremoved : (@detectChanges O2 (select_followings (ID account) s) L).2
                     ≡ₚ unfollows).
  { rewrite (@detectChanges_filter O2).
    rewrite (@detectChanges_filter O1) in Hd. injection Hd as _ <-. simpl.
    by rewrite (@range_perm O2), (@range_perm O1). }
  assert (Hch2 : hasChanges
                   (@detectChanges O2 (select_followings (ID account) s) L).1
                   (@detectChanges O2 (select_followings (ID account) s) L).2
                 = true).
  { apply not_false_iff_true. intros [Hn1 Hn2]%hasChanges_false.
    rewrite Hn1 in Hadded. rewrite Hn2 in Hremoved.
    apply Permutation_nil_l in Hremoved. by subst. }
  unfold ProcessFollowingChanges, GetCurrentFollowings. rewrite fails_None, Hsel.
  destruct (@detectChanges O2 _ _) as [newFollows2 unfollows2] eqn:Hd2.
  simpl in *. rewrite Hch2.
  destruct (StoreFollowEvents_no_fault s1 (ID account) newFollows2 unfollows2 now')
    as [s2 Hev2].
  destruct (@StoreFollowings_no_fault O2 s2 (ID account) L) as [s3 Hst3].
  rewrite Hev2, Hst3. exists s3. split; [done|].
  pose proof (@StoreFollowings_other_tables O2 _ _ _ _ _ _ Hst3) as [_ ->].
  rewrite (StoreFollowEvents_keys _ _ _ _ _ _ _ Hev2), Hkeys.
  split; [by rewrite <- app_assoc|]. split; [done|]. split; [done|].
  intros Hnil. apply app_eq_nil in Hnil as [-> ->]. done.
Qed.

Lemma StoreFollowings_idempotent_witness :
  StoreFollowings None
    (StoreFollowings None examples.store1 1 examples.latestX).1 1 examples.latestX
  = ((StoreFollowings None examples.store1 1 examples.latestX).1, None).
Proof.
  apply (StoreFollowings_idempotent None examples.store1). by vm_compute.
Defined.

Lemma StoreFollowings_set_only_witness :
  StoreFollowings None examples.store1 1 ["u4"; "u2"; "u4"]
  = StoreFollowings None examples.store1 1 ["u2"; "u4"].
Proof. apply StoreFollowings_set_only. by vm_compute. Defined.

Lemma detectChanges_shape_witness :
  (detectChanges {[ "u1" ]} ["a"; "u1"; "a"; "b"]).1 = ["a"; "a"; "b"]
  ∧ NoDup (detectChanges {[ "u1"; "u2"; "u3" ]} examples.latestX).1.
Proof.
  split.
  - destruct (detectChanges_shape {[ "u1" ]} ["a"; "u1"; "a"; "b"]) as [Heq _].
    rewrite Heq. by vm_compute.
  - apply (detectChanges_shape {[ "u1"; "u2"; "u3" ]} examples.latestX).
    by_evaluation.
Defined.

Lemma retry_records_delta_again_witness :
  ∃ s2,
    @ProcessFollowingChanges examples.reversed_order None None None
      (@ProcessFollowingChanges elements_order None None (Some 0%nat)
         examples.store1 examples.accountX ["u3"; "u4"] 7).1
      examples.accountX ["u3"; "u4"] 8 = (s2, None)
    ∧ event_key <$> follow_events s2
      = [(1, "u4", EventTypeFollow, 7); (1, "u1", EventTypeUnfollow, 7);
         (1, "u2", EventTypeUnfollow, 7); (1, "u4", EventTypeFollow, 8);
         (1, "u2", EventTypeUnfollow, 8); (1, "u1", EventTypeUnfollow, 8)].
Proof.
  destruct (retry_records_delta_again elements_order examples.reversed_order
              None None (Some 0%nat) examples.store1
              (@ProcessFollowingChanges elements_order None None (Some 0%nat)
                 examples.store1 examples.accountX ["u3"; "u4"] 7).1
              examples.accountX ["u3"; "u4"] 7 8
              "updating followings: beginning transaction")
    as (s2 & Hcall & Hkeys & _).
  - by vm_compute.
  - vm_compute. intros Heq. discriminate Heq.
  - exists s2. split; [exact Hcall|]. rewrite Hkeys. by vm_compute.
Defined.

(** ** The reconciliation cycle *)

Section cycle_extras.
Context `{MapOrder}.

Lemma checkAccount_append_only env w account :
  watched_accounts (ui.w_db (ui.checkAccount env w account))
    = watched_accounts (ui.w_db w)
  ∧ follow_events (ui.w_db w) `prefix_of`
      follow_events (ui.w_db (ui.checkAccount env w account))
  ∧ ui.w_sent w `prefix_of` ui.w_sent (ui.checkAccount env w account).
Proof.
  destruct (checkAccount_cases env w account)
    as [->|(r & s1 & _ & Hev & [->|(s2 & Hst & ->)])]; [done|..]; simpl.
  - pose proof (StoreFollowEvents_prefix _ _ _ _ _ _ _ _ Hev).
    by apply StoreFollowEvents_spec in Hev as (_ & _ & ->).
  - pose proof (StoreFollowEvents_prefix _ _ _ _ _ _ _ _ Hev).
    apply StoreFollowEvents_spec in Hev as (_ & _ & <-).
    pose proof (StoreFollowings_other_tables _ _ _ _ _ _ Hst) as [-> ->].
    split; [done|]. split; [done|]. by apply prefix_app_r.
Qed.

Lemma foldl_checkAccount_append_only env l w :
  watched_accounts (ui.w_db (foldl (ui.checkAccount env) w l))
    = watched_accounts (ui.w_db w)
  ∧ follow_events (ui.w_db w) `prefix_of`
      follow_events (ui.w_db (foldl (ui.checkAccount env) w l))
  ∧ ui.w_sent w `prefix_of` ui.w_sent (foldl (ui.checkAccount env) w l).
Proof.
  revert w. induction l as [|a l IH]; intros w; [done|]. simpl.
  destruct (IH (ui.checkAccount env w a)) as (Ha & He & Hs).
  destruct (checkAccount_append_only env w a) as (Ha' & He' & Hs').
  split; [congruence|]. split; by etrans.
Qed.

Lemma checkAccount_snapshot_other env w account id :
  ID account ≠ id →
  select_followings id (ui.w_db (ui.checkAccount env w account))
  = select_followings id (ui.w_db w).
Proof.
  intros Hid.
  destruct (checkAccount_cases env w account)
    as [->|(r & s1 & _ & Hev & [->|(s2 & Hst & ->)])]; [done|..]; simpl;
    apply StoreFollowEvents_spec in Hev as (_ & Hrows & _).
  - apply select_followings_ext. intros x. by rewrite Hrows.
  - apply select_followings_ext. intros x.
    rewrite (StoreFollowings_following _ _ _ _ _ _ _ Hst).
    rewrite decide_False by done. by rewrite Hrows.
Qed.

Lemma foldl_checkAccount_snapshot_other env l w id :
  id ∉ (ID <$> l) →
  select_followings id (ui.w_db (foldl (ui.checkAccount env) w l))
  = select_followings id (ui.w_db w).
Proof.
  revert w. induction l as [|a l IH]; intros w Hid; [done|]. simpl.
  rewrite fmap_cons, not_elem_of_cons in Hid. destruct Hid as [Hne Hid].
  rewrite IH by done. by apply checkAccount_snapshot_other.
Qed.

Lemma foldl_checkAccount_converged env l w :
  NoDup (ID <$> l) →
  (∀ a, a ∈ l → ui.faults env (ID a) = ui.no_faults) →
  ∀ a r, a ∈ l →
    api.FollowingIDs (ui.api env) (UserID a) = Ok r →
    select_followings (ID a) (ui.w_db (foldl (ui.checkAccount env) w l))
    = list_to_set (api.IDs r).
Proof.
  revert w. induction l as [|b l IH]; intros w Hnd Hfaults a r Ha Hfetch.
  { by apply elem_of_nil in Ha. }
  rewrite fmap_cons in Hnd. apply NoDup_cons in Hnd as [Hb Hnd]. simpl.
  apply elem_of_cons in Ha as [->|Ha].
  - rewrite foldl_checkAccount_snapshot_other by done.
    eapply checkAccount_processed; [|done]. apply Hfaults. left.
  - apply IH; try done. intros c Hc. apply Hfaults. by right.
Qed.

Lemma foldl_checkAccount_fixed env l w :
  (∀ a r, a ∈ l →
     api.FollowingIDs (ui.api env) (UserID a) = Ok r →
     list_to_set (api.IDs r) = select_followings (ID a) (ui.w_db w)) →
  foldl (ui.checkAccount env) w l = w.
Proof.
  induction l as [|a l IH]; intros Hl; [done|]. simpl.
  assert (Ha : ui.checkAccount env w a = w).
  { destruct (api.FollowingIDs (ui.api env) (UserID a)) as [r|e] eqn:Hfetch.
    - eapply checkAccount_unchanged; [done|]. apply Hl; [left|done].
    - unfold ui.checkAccount. by rewrite Hfetch. }
  rewrite Ha. apply IH. intros b r Hb. apply Hl. by right.
Qed.

(** X10. A cycle only appends: whatever fails, the watched accounts are the
    same afterwards, the event log before the cycle is a prefix of the log
    after it, and so is the list of posts. *)
Theorem CheckAccounts_append_only (env : ui.Env) (fl : fault) (w : ui.World) :
  watched_accounts (ui.w_db (ui.CheckAccounts env fl w))
    = watched_accounts (ui.w_db w)
  ∧ follow_events (ui.w_db w) `prefix_of`
      follow_events (ui.w_db (ui.CheckAccounts env fl w))
  ∧ ui.w_sent w `prefix_of` ui.w_sent (ui.CheckAccounts env fl w).
Proof.
  unfold ui.CheckAccounts, GetWatchedAccounts. destruct (fails fl 0); [done|].
  apply foldl_checkAccount_append_only.
Qed.

(** X11. A cycle without storage faults settles the store: a second cycle
    against the same upstream answers writes nothing and sends nothing. *)
Theorem CheckAccounts_twice (env : ui.Env) (w : ui.World) :
  NoDup (ID <$> watched_accounts (ui.w_db w)) →
  (∀ a, a ∈ watched_accounts (ui.w_db w) → ui.faults env (ID a) = ui.no_faults) →
  ui.CheckAccounts env None (ui.CheckAccounts env None w)
  = ui.CheckAccounts env None w.
Proof.
  intros Hnd Hfaults.
  unfold ui.CheckAccounts, GetWatchedAccounts. rewrite !fails_None.
  destruct (foldl_checkAccount_append_only env (watched_accounts (ui.w_db w)) w)
    as (-> & _ & _).
  apply foldl_checkAccount_fixed. intros a r Ha Hfetch. symmetry.
  by apply foldl_checkAccount_converged.
Qed.

(** X12. A fault-free step for an account without snapshot rows records one
    Follow event per fetched entry, in the order fetched and repeated
    entries included, records no Unfollow, and notifies the whole list as
    new follows. *)
Theorem checkAccount_unseeded (env : ui.Env) (w : ui.World)
    (account : WatchedAccount) (r : api.FollowingIDsResponse) :
  ui.faults env (ID account) = ui.no_faults →
  api.FollowingIDs (ui.api env) (UserID account) = Ok r →
  select_followings (ID account) (ui.w_db w) = ∅ →
  event_key <$> follow_events (ui.w_db (ui.checkAccount env w account))
  = (event_key <$> follow_events (ui.w_db w))
    ++ ((λ id, (ID account, id, EventTypeFollow, ui.clock env (ID account)))
          <$> api.IDs r)
  ∧ ui.w_sent (ui.checkAccount env w account)
    = ui.w_sent w ++ ui.sendNotifications env account (api.IDs r) [].
Proof.
  intros Hfaults Hfetch Hempty.
  destruct (checkAccount_processed env w account r Hfaults Hfetch) as (_ & _ & Hsent).
  rewrite Hempty, detectChanges_empty in Hsent. simpl in Hsent.
  split; [|done].
  unfold ui.checkAccount. rewrite Hfetch, Hfaults. simpl.
  unfold GetCurrentFollowings. rewrite ?fails_None, Hempty, detectChanges_empty.
  destruct (hasChanges _ _) eqn:Hch.
  - destruct (StoreFollowEvents_no_fault (ui.w_db w) (ID account) (api.IDs r) []
                (ui.clock env (ID account))) as [s1 Hev].
    destruct (StoreFollowings_no_fault s1 (ID account) (api.IDs r)) as [s2 Hst].
    rewrite Hev, Hst. simpl.
    pose proof (StoreFollowings_other_tables _ _ _ _ _ _ Hst) as [_ ->].
    rewrite (StoreFollowEvents_keys _ _ _ _ _ _ _ Hev). unfold delta_keys.
    by rewrite app_nil_r.
  - apply hasChanges_false in Hch as [-> _]. by rewrite app_nil_r.
Qed.

(** ** The add-account flow *)

(** X13. Adding a user whose screen name is already watched fails and
    leaves the store and the posts as they were. *)
Theorem handleAddAccount_duplicate (env : ui.Env) (fa fs : fault) (w : ui.World)
    (username : string) (user : api.UserResponse) :
  api.GetUser (ui.api env) (ui.TrimPrefix_at username) = Ok user →
  api.ScreenName user ∈ (Username <$> watched_accounts (ui.w_db w)) →
  ∃ e, ui.handleAddAccount env fa fs w username = (w, Some e).
Proof.
  intros Huser Hdup. unfold ui.handleAddAccount. rewrite Huser.
  destruct (AddWatchedAccount_taken fa (ui.w_db w) (api.ScreenName user)
              (api.RestID user) Hdup) as [e ->].
  exists e. by destruct w.
Qed.

(** X14. When the initial fetch fails, the add-account flow returns the
    error but the account stays in the table, with no following row
    written for it, no event and no post. *)
Theorem handleAddAccount_fetch_failure (env : ui.Env) (fs : fault) (w : ui.World)
    (username : string) (user : api.UserResponse) (e : error) :
  api.GetUser (ui.api env) (ui.TrimPrefix_at username) = Ok user →
  api.ScreenName user ∉ (Username <$> watched_accounts (ui.w_db w)) →
  api.FollowingIDs (ui.api env) (api.RestID user) = Err e →
  ∃ w',
    ui.handleAddAccount env None fs w username
    = (w', Some ("getting initial followings: " +:+ e))
    ∧ watched_accounts (ui.w_db w')
      = watched_accounts (ui.w_db w) ++
        [{| ID := next_rowid (ID <$> watched_accounts (ui.w_db w));
            Username := api.ScreenName user; UserID := api.RestID user |}]
    ∧ following (ui.w_db w') = following (ui.w_db w)
    ∧ follow_events (ui.w_db w') = follow_events (ui.w_db w)
    ∧ ui.w_sent w' = ui.w_sent w.
Proof.
  intros Huser Hfresh Hfetch. unfold ui.handleAddAccount. rewrite Huser.
  unfold AddWatchedAccount. rewrite fails_None.
  rewrite bool_decide_eq_false_2 by done. simpl. rewrite Hfetch.
  eexists. split; [done|]. done.
Qed.

End cycle_extras.

Lemma CheckAccounts_twice_witness :
  ui.CheckAccounts examples.env None
    (ui.CheckAccounts examples.env None (examples.world examples.store2))
  = ui.CheckAccounts examples.env None (examples.world examples.store2).
Proof.
  apply CheckAccounts_twice.
  - simpl. apply NoDup_cons. split; [|apply NoDup_singleton].
    intros Hin. apply list_elem_of_singleton in Hin. discriminate Hin.
  - intros a _. reflexivity.
Defined.

Lemma checkAccount_unseeded_witness :
  event_key <$> follow_events
    (ui.w_db (ui.checkAccount examples.env (examples.world examples.storeZ)
                examples.accountZ))
  = [(1, "u1", EventTypeFollow, 7); (1, "u2", EventTypeFollow, 7)].
Proof.
  destruct (checkAccount_unseeded examples.env (examples.world examples.storeZ)
              examples.accountZ
              {| api.IDs := ["u1"; "u2"]; api.NextCursor := 0;
                 api.NextCursorStr := "" |}) as [Hkeys _].
  - reflexivity.
  - reflexivity.
  - by vm_compute.
  - rewrite Hkeys. reflexivity.
Defined.

Lemma handleAddAccount_duplicate_witness :
  ∃ e, ui.handleAddAccount examples.env None None
         (examples.world examples.storeZ) "@z"
       = (examples.world examples.storeZ, Some e).
Proof.
  apply (handleAddAccount_duplicate examples.env None None
           (examples.world examples.storeZ) "@z"
           {| api.RestID := "300"; api.ScreenName := "z"; api.FriendsCount := 2 |}).
  - reflexivity.
  - simpl. left.
Defined.

Lemma handleAddAccount_fetch_failure_witness :
  ∃ w',
    ui.handleAddAccount examples.envDown None None
      (examples.world examples.emptyStore) "z"
    = (w', Some "getting initial followings: API error: status=503")
    ∧ watched_accounts (ui.w_db w') = [examples.accountZ]
    ∧ following (ui.w_db w') = ∅.
Proof.
  destruct (handleAddAccount_fetch_failure examples.envDown None
              (examples.world examples.emptyStore) "z"
              {| api.RestID := "300"; api.ScreenName := "z"; api.FriendsCount := 2 |}
              "API error: status=503")
    as (w' & Hcall & Haccs & Hrows & _).
  - reflexivity.
  - simpl. intros Hin. by apply elem_of_nil in Hin.
  - reflexivity.
  - exists w'. split; [exact Hcall|]. split; [exact Haccs|exact Hrows].
Defined.

(** ** The remove-account flow *)

(** X15. [handleRemoveByUsername] rejects an empty name and a name that is
    not in the cached account list: it returns an error and touches
    neither the store nor the model. *)
Theorem handleRemoveByUsername_rejects (f fl : fault) (m : ui.Model)
    (s : Database) (username : string) :
  ui.TrimPrefix_at username = "" ∨
  ui.TrimPrefix_at username ∉ (Username <$> ui.accounts m) →
  ∃ e, ui.handleRemoveByUsername f fl m s username = (m, s, Some e).
Proof.
  intros Hbad. unfold ui.handleRemoveByUsername.
  case_bool_decide as Hempty; [by eexists|].
  destruct Hbad as [?|Hnot]; [done|].
  destruct (list_find _ _) as [[i account]|] eqn:Hfind; [|by eexists].
  apply list_find_Some in Hfind as (Hi & Hname & _).
  exfalso. apply Hnot. rewrite <- Hname.
  eapply list_elem_of_fmap_2, list_elem_of_lookup_2, Hi.
Qed.

(** X16. For a name in the cached list (usernames distinct) and without
    storage faults, [handleRemoveByUsername] removes the account row and
    its snapshot, keeps the events, reloads the cached list from the store
    and returns to normal mode with the input cleared. *)
Theorem handleRemoveByUsername_removes (m : ui.Model) (s : Database)
    (username : string) (account : WatchedAccount) :
  ui.TrimPrefix_at username ≠ "" →
  NoDup (Username <$> ui.accounts m) →
  account ∈ ui.accounts m →
  Username account = ui.TrimPrefix_at username →
  ∃ m' s',
    ui.handleRemoveByUsername None None m s username = (m', s', None)
    ∧ watched_accounts s' = filter (λ a, ID a ≠ ID account) (watched_accounts s)
    ∧ select_followings (ID account) s' = ∅
    ∧ follow_events s' = follow_events s
    ∧ ui.accounts m' = watched_accounts s'
    ∧ ui.mode m' = ui.ModeNormal
    ∧ ui.input m' = "".
Proof.
  intros Hne Hnd Hin Hname. unfold ui.handleRemoveByUsername.
  rewrite bool_decide_eq_false_2 by done.
  destruct (list_find _ _) as [[i found]|] eqn:Hfind.
  - apply list_find_Some in Hfind as (Hi & Hfname & _).
    assert (found = account) as ->.
    { apply list_elem_of_lookup in Hin as [j Hj].
      assert (i = j) as ->; [|congruence].
      eapply NoDup_lookup; [exact Hnd| |].
      - by rewrite list_lookup_fmap, Hi.
      - rewrite list_lookup_fmap, Hj. simpl. congruence. }
    eexists _, _. split; [reflexivity|]. simpl.
    split; [done|]. split; [|done].
    apply set_eq. intros x. rewrite elem_of_select_followings. simpl.
    rewrite elem_of_filter. simpl. set_solver.
  - apply list_find_None in Hfind. rewrite Forall_forall in Hfind.
    by destruct (Hfind _ Hin).
Qed.

Lemma handleRemoveByUsername_rejects_witness :
  ∃ e, ui.handleRemoveByUsername None None (examples.model ui.ModeRemoveAccount)
         examples.store2 "@nobody"
       = (examples.model ui.ModeRemoveAccount, examples.store2, Some e).
Proof.
  apply handleRemoveByUsername_rejects. right. simpl. intros Hin.
  apply elem_of_cons in Hin as [Hin|Hin]; [discriminate Hin|].
  apply list_elem_of_singleton in Hin. discriminate Hin.
Defined.

Lemma handleRemoveByUsername_removes_witness :
  ∃ m' s',
    ui.handleRemoveByUsername None None (examples.model ui.ModeRemoveAccount)
      examples.store2 "@y" = (m', s', None)
    ∧ ui.accounts m' = [examples.accountX]
    ∧ select_followings 2 s' = ∅.
Proof.
  destruct (handleRemoveByUsername_removes (examples.model ui.ModeRemoveAccount)
              examples.store2 "@y" examples.accountY)
    as (m' & s' & Hcall & Haccs & Hsnap & _ & Hcache & _).
  - simpl. intros Heq. discriminate Heq.
  - simpl. apply NoDup_cons. split; [|apply NoDup_singleton].
    intros Hin. apply list_elem_of_singleton in Hin. discriminate Hin.
  - simpl. right. left.
  - reflexivity.
  - exists m', s'. split; [exact Hcall|]. split; [|exact Hsnap].
    rewrite Hcache, Haccs. reflexivity.
Defined.

(** ** Pagination: failures and non-termination *)

Lemma GetFollowingIDs_loop_breaks up userID nextCursor e :
  api.breaks up userID nextCursor e →
  ∃ n, ∀ fuel allIDs, (n ≤ fuel)%nat →
    api.GetFollowingIDs_loop fuel up userID allIDs nextCursor
    = Some (Err ("sending request: " +:+ e)).
Proof.
  induction 1 as [nextCursor e Hup|nextCursor r e Hup Hmore _ [n IH]].
  - exists 1%nat. intros fuel allIDs Hfuel.
    destruct fuel as [|fuel]; [lia|]. simpl. by rewrite Hup.
  - exists (S n). intros fuel allIDs Hfuel.
    destruct fuel as [|fuel]; [lia|]. simpl. rewrite Hup.
    rewrite bool_decide_eq_false_2 by done. apply IH. lia.
Qed.

(** X17. When the request for any page fails, [GetFollowingIDs] returns
    that error and none of the IDs of the pages fetched before it. *)
Theorem GetFollowingIDs_no_partial_result (up : api.Upstream) (userID : string)
    (e : error) :
  api.breaks up userID "0" e →
  ∃ n, ∀ fuel, (n ≤ fuel)%nat →
    api.GetFollowingIDs fuel up userID = Some (Err ("sending request: " +:+ e)).
Proof.
  intros [n Hn]%GetFollowingIDs_loop_breaks. exists n. intros fuel Hfuel.
  by apply Hn.
Qed.

Lemma GetFollowingIDs_no_partial_result_witness :
  ∃ n, ∀ fuel, (n ≤ fuel)%nat →
    api.GetFollowingIDs fuel examples.breaking "100"
    = Some (Err "sending request: API error: status=429").
Proof.
  apply (GetFollowingIDs_no_partial_result examples.breaking "100"
           "API error: status=429").
  apply (api.breaks_later _ _ "0"
           {| api.IDs := ["u1"; "u2"]; api.NextCursor := 7;
              api.NextCursorStr := "7" |}); [reflexivity|done|].
  apply api.breaks_here. reflexivity.
Defined.

(** X18. The loop has no page limit: against an upstream whose every reply
    carries a non-zero [next_cursor], [GetFollowingIDs] does not return,
    however many requests it is allowed. *)
Theorem GetFollowingIDs_no_page_cap (up : api.Upstream) (userID : string) :
  (∀ cursor, ∃ r, up userID cursor = Ok r ∧ api.NextCursor r ≠ 0) →
  ∀ fuel, api.GetFollowingIDs fuel up userID = None.
Proof.
  intros Hup fuel. unfold api.GetFollowingIDs.
  generalize (@nil string) "0"%string.
  induction fuel as [|fuel IH]; intros allIDs nextCursor; [done|]. simpl.
  destruct (Hup (if bool_decide (nextCursor ≠ "0") then Some nextCursor else None))
    as (r & -> & Hr).
  rewrite bool_decide_eq_false_2 by done. apply IH.
Qed.

Lemma GetFollowingIDs_no_page_cap_witness :
  api.GetFollowingIDs 1000 examples.endless "100" = None.
Proof.
  apply (GetFollowingIDs_no_page_cap examples.endless "100"). intros cursor.
  exists {| api.IDs := ["u1"]; api.NextCursor := 1; api.NextCursorStr := "1" |}.
  split; [reflexivity|done].
Defined.

(** X19. The end of the list is read off the number [next_cursor], the next
    request is built from the string [next_cursor_str]: a first reply with a
    non-zero number and the string "0" makes the client ask for the first
    page again, without end. *)
Theorem GetFollowingIDs_cursor_mismatch (up : api.Upstream) (userID : string)
    (r : api.FollowingIDsResponse) :
  up userID None = Ok r →
  api.NextCursor r ≠ 0 →
  api.NextCursorStr r = "0" →
  ∀ fuel, api.GetFollowingIDs fuel up userID = None.
Proof.
  intros Hup Hnum Hstr fuel. unfold api.GetFollowingIDs.
  generalize (@nil string).
  induction fuel as [|fuel IH]; intros allIDs; [done|]. simpl.
  rewrite Hup. rewrite bool_decide_eq_false_2 by done. rewrite Hstr. apply IH.
Qed.

Lemma GetFollowingIDs_cursor_mismatch_witness :
  api.GetFollowingIDs 1000 examples.mismatched "100" = None.
Proof.
  apply (GetFollowingIDs_cursor_mismatch examples.mismatched "100"
           {| api.IDs := ["u1"]; api.NextCursor := 5; api.NextCursorStr := "0" |});
    [reflexivity|done|reflexivity].
Defined.

(** ** The quota counter *)

Lemma int32_id count : - 2 ^ 31 ≤ count < 2 ^ 31 → api.int32 count = count.
Proof. intros Hr. unfold api.int32. rewrite Z.mod_small; lia. Qed.

Lemma int32_range count : - 2 ^ 31 ≤ api.int32 count < 2 ^ 31.
Proof.
  unfold api.int32.
  pose proof (Z.mod_pos_bound (count + 2 ^ 31) (2 ^ 32)). lia.
Qed.

Lemma last_cons_default {B} (c v : B) (l : list B) :
  default c (last (v :: l)) = default v (last l).
Proof.
  destruct l as [|y l]; [done|]. rewrite last_cons_cons.
  destruct (last (y :: l)) eqn:Hl; [done|]. by apply last_None in Hl.
Qed.

Section request_facts.
Context {A : Type} (Atoi : string → option Z) (decode : string → result A).

Lemma doRequest_counter c sent :
  (api.doRequest Atoi decode c sent).1 = default c (api.carried Atoi sent).
Proof.
  unfold api.doRequest, api.carried. destruct sent as [resp|e]; [|done].
  unfold api.storeRemaining.
  destruct (bool_decide (api.StatusCode resp ≠ 200));
    [|destruct (decode (api.Body resp))]; simpl;
    case_bool_decide; try done; by destruct (Atoi _).
Qed.

Lemma RemainingRequests_after_last c sents :
  api.RemainingRequests_after Atoi decode c sents
  = default c (last (omap (api.carried Atoi) sents)).
Proof.
  revert c. unfold api.RemainingRequests_after.
  induction sents as [|sent sents IH]; intros c; [done|]. simpl.
  rewrite IH, doRequest_counter.
  destruct (api.carried Atoi sent) as [v|]; simpl; [|reflexivity].
  symmetry. apply last_cons_default.
Qed.

(** X20. The quota counter after a run of requests is the value carried by
    the last response with a readable rate-limit header, whatever the
    status of that response; responses without the header, with an
    unreadable one, and failed requests leave it alone; it always fits an
    [int32]. *)
Theorem RemainingRequests_last_header (c : Z) (sents : list (result api.Response)) :
  api.RemainingRequests_after Atoi decode c sents
  = default c (last (omap (api.carried Atoi) sents))
  ∧ (Forall (λ sent, api.carried Atoi sent = None) sents →
     api.RemainingRequests_after Atoi decode c sents = c)
  ∧ (- 2 ^ 31 ≤ c < 2 ^ 31 →
     - 2 ^ 31 ≤ api.RemainingRequests_after Atoi decode c sents < 2 ^ 31)
  ∧ (∀ resp count,
       api.RateLimitRemaining resp ≠ "" →
       Atoi (api.RateLimitRemaining resp) = Some count →
       - 2 ^ 31 ≤ count < 2 ^ 31 →
       api.RemainingRequests_after Atoi decode c (sents ++ [Ok resp]) = count).
Proof.
  split; [apply RemainingRequests_after_last|]. split; [|split].
  - intros Hnone. rewrite RemainingRequests_after_last.
    replace (omap (api.carried Atoi) sents) with (@nil Z); [done|].
    induction Hnone as [|sent sents Hs _ IH]; [done|]. simpl. by rewrite Hs.
  - intros Hc. rewrite RemainingRequests_after_last.
    destruct (last (omap (api.carried Atoi) sents)) as [v|] eqn:Hv; [|done]. simpl.
    apply last_Some_elem_of, list_elem_of_omap in Hv as (sent & _ & Hsent).
    unfold api.carried in Hsent. destruct sent as [resp|]; [|done].
    case_bool_decide; [|done].
    destruct (Atoi _) as [count|]; [|done]. simpl in Hsent.
    injection Hsent as <-. apply int32_range.
  - intros resp count Hhdr Hatoi Hrange.
    rewrite RemainingRequests_after_last, omap_app. simpl.
    rewrite bool_decide_eq_true_2, Hatoi by done. simpl.
    rewrite last_snoc. simpl. by apply int32_id.
Qed.

End request_facts.

Lemma RemainingRequests_last_header_witness :
  api.RemainingRequests_after examples.Atoi examples.decode 100 examples.responses
  = 0
  ∧ api.RemainingRequests_after examples.Atoi examples.decode 100
      [Err "timeout"] = 100.
Proof.
  destruct (RemainingRequests_last_header examples.Atoi examples.decode 100
              examples.responses) as (Hlast & _).
  destruct (RemainingRequests_last_header examples.Atoi examples.decode 100
              [Err "timeout"]) as (_ & Hnone & _).
  split.
  - rewrite Hlast. reflexivity.
  - apply Hnone. constructor; [reflexivity|constructor].
Defined.

(** ** The notification manager *)

Lemma attempts_shape kind m client account ids msg :
  msg ∈ webhook.attempts kind m client account ids →
  ∃ c, msg = webhook.message c kind client account ids.
Proof.
  unfold webhook.attempts. intros [Hin|Hin]%elem_of_app.
  - destruct (webhook.enableDiscord m), (webhook.discord m) as [d|];
      try by apply elem_of_nil in Hin.
    case_bool_decide; [by apply elem_of_nil in Hin|].
    apply list_elem_of_singleton in Hin as ->. by eexists.
  - destruct (webhook.enableTelegram m), (webhook.telegram m) as [t|];
      try by apply elem_of_nil in Hin.
    destruct (_ || _); [by apply elem_of_nil in Hin|].
    apply list_elem_of_singleton in Hin as ->. by eexists.
Qed.

Lemma attempts_length kind m client account ids :
  (length (webhook.attempts kind m client account ids) ≤ 2)%nat.
Proof.
  unfold webhook.attempts. rewrite length_app.
  destruct (webhook.enableDiscord m), (webhook.discord m) as [d|],
    (webhook.enableTelegram m), (webhook.telegram m) as [t|]; simpl;
    repeat first [case_bool_decide | destruct (_ || _)]; simpl; lia.
Qed.

Lemma fields_fst {B} (g : string → B) (l : list string) :
  ((λ userID, (userID, g userID)) <$> l).*1 = l.
Proof. induction l as [|x l IH]; [done|]. rewrite !fmap_cons. simpl. by f_equal. Qed.

Lemma channel_block_log {W} enabled (hook : option W) notify failure :
  (webhook.channel_block enabled hook notify failure).2
  = match enabled, hook with
    | true, Some w => match (notify w).2 with Some e => [failure +:+ e] | None => [] end
    | _, _ => []
    end.
Proof.
  unfold webhook.channel_block. destruct enabled, hook as [w|]; try done.
  by destruct (notify w) as [ms [e|]].
Qed.

(** X21. A manager built by [NewNotificationManager] posts on a channel
    exactly when the channel is enabled and its credentials are not empty
    (the webhook URL for Discord; the bot token and the chat ID for
    Telegram), Discord first. *)
Theorem NewNotificationManager_channels
    (discordURL telegramToken telegramChatID : string)
    (enableDiscord enableTelegram : bool) (post : webhook.Post)
    (client : api.Client) (account : WatchedAccount) (follows : list string) :
  (webhook.NotifyNewFollows
     (webhook.NewNotificationManager discordURL telegramToken telegramChatID
        enableDiscord enableTelegram) post client account follows).1
  = (if enableDiscord && bool_decide (discordURL ≠ "")
     then [webhook.message webhook.Discord EventTypeFollow client account follows]
     else [])
    ++ (if enableTelegram && bool_decide (telegramToken ≠ "")
           && bool_decide (telegramChatID ≠ "")
        then [webhook.message webhook.Telegram EventTypeFollow client account follows]
        else []).
Proof.
  rewrite NotifyNewFollows_attempts.
  unfold webhook.attempts, webhook.NewNotificationManager. simpl. f_equal.
  - destruct enableDiscord; [|done]. simpl. case_bool_decide; [|done]. simpl.
    by rewrite bool_decide_eq_false_2.
  - destruct enableTelegram; [|done]. simpl.
    case_bool_decide as Ht; [|done]. case_bool_decide as Hc; [|done]. simpl.
    by rewrite !bool_decide_eq_false_2.
Qed.

(** X22. Every post states the full number of changed IDs but enumerates at
    most 25 of them: the first 25 in list order, each with the outcome of
    its profile lookup. *)
Theorem notification_caps_entries (m : webhook.NotificationManager)
    (post : webhook.Post) (client : api.Client) (account : WatchedAccount)
    (ids : list string) (msg : webhook.Message) :
  msg ∈ (webhook.NotifyNewFollows m post client account ids).1
        ++ (webhook.NotifyUnfollows m post client account ids).1 →
  webhook.msg_count msg = length ids
  ∧ (webhook.msg_fields msg).*1 = take 25 ids
  ∧ (length (webhook.msg_fields msg) ≤ 25)%nat
  ∧ Forall (λ f, f.2 = api.GetUserByID client f.1) (webhook.msg_fields msg).
Proof.
  rewrite NotifyNewFollows_attempts, NotifyUnfollows_attempts.
  intros [[c ->]%attempts_shape|[c ->]%attempts_shape]%elem_of_app; simpl;
    unfold webhook.fields.
  all: split; [done|]; split; [apply fields_fst|].
  all: split; [rewrite length_fmap, length_take; lia|].
  all: apply Forall_fmap, Forall_forall; by intros x _.
Qed.

(** X23. The notification block of a step makes at most four posts; a post
    about follows is made only with follow notifications switched on and
    a non-empty list of new follows, a post about unfollows only with
    unfollow notifications switched on and a non-empty list of unfollows. *)
Theorem sendNotifications_gated (env : ui.Env) (account : WatchedAccount)
    (newFollows unfollows : list string) :
  (length (ui.sendNotifications env account newFollows unfollows) ≤ 4)%nat
  ∧ ∀ msg, msg ∈ ui.sendNotifications env account newFollows unfollows →
      match webhook.msg_kind msg with
      | EventTypeFollow =>
          ui.EnableFollowNotifications (ui.config env) = true
          ∧ newFollows ≠ [] ∧ webhook.msg_count msg = length newFollows
      | EventTypeUnfollow =>
          ui.EnableUnfollowNotifications (ui.config env) = true
          ∧ unfollows ≠ [] ∧ webhook.msg_count msg = length unfollows
      end.
Proof.
  rewrite sendNotifications_attempts.
  destruct (ui.notifications env) as [m|]; [|split; [simpl; lia|by intros ? ?%elem_of_nil]].
  split.
  - rewrite length_app.
    pose proof (attempts_length EventTypeFollow m (ui.api env) account newFollows).
    pose proof (attempts_length EventTypeUnfollow m (ui.api env) account unfollows).
    destruct (_ && _), (_ && _); simpl; lia.
  - intros msg [Hin|Hin]%elem_of_app.
    + destruct (ui.EnableFollowNotifications _); [|by apply elem_of_nil in Hin].
      simpl in Hin. case_bool_decide as Hlen; [|by apply elem_of_nil in Hin].
      apply attempts_shape in Hin as [c ->]. simpl.
      split; [done|]. split; [|done]. intros ->. simpl in Hlen. lia.
    + destruct (ui.EnableUnfollowNotifications _); [|by apply elem_of_nil in Hin].
      simpl in Hin. case_bool_decide as Hlen; [|by apply elem_of_nil in Hin].
      apply attempts_shape in Hin as [c ->]. simpl.
      split; [done|]. split; [|done]. intros ->. simpl in Hlen. lia.
Qed.

(** X24. The failure lines of [NotifyNewFollows].  The two blocks of the
    manager write a line only when the channel function returns an error:
    the lines they write are, in channel order, the error of every post
    attempted that came back with one, under the heading of the channel
    ("Failed to send Discord follow notification: ", "Failed to send
    Telegram follow notification: "); a post that was accepted leaves no
    such line.  What the channel functions themselves log on the way (the
    URL, the payload, the response status) is not covered. *)
Theorem NotifyNewFollows_logs_failures (m : webhook.NotificationManager)
    (post : webhook.Post) (client : api.Client) (account : WatchedAccount)
    (follows : list string) :
  (webhook.NotifyNewFollows m post client account follows).2
  = omap (λ msg,
            (λ e, match webhook.msg_channel msg with
                  | webhook.Discord => "Failed to send Discord follow notification: "
                  | webhook.Telegram => "Failed to send Telegram follow notification: "
                  end +:+ e) <$> post msg)
         (webhook.NotifyNewFollows m post client account follows).1.
Proof.
  unfold webhook.NotifyNewFollows.
  pose proof (channel_block_attempts (webhook.enableDiscord m) (webhook.discord m)
    (λ d, webhook.Discord_notify EventTypeFollow d post client account follows)
    "Failed to send Discord follow notification: ") as Hd.
  pose proof (channel_block_log (webhook.enableDiscord m) (webhook.discord m)
    (λ d, webhook.Discord_notify EventTypeFollow d post client account follows)
    "Failed to send Discord follow notification: ") as Hdl.
  pose proof (channel_block_attempts (webhook.enableTelegram m) (webhook.telegram m)
    (λ t, webhook.Telegram_notify EventTypeFollow t post client account follows)
    "Failed to send Telegram follow notification: ") as Ht.
  pose proof (channel_block_log (webhook.enableTelegram m) (webhook.telegram m)
    (λ t, webhook.Telegram_notify EventTypeFollow t post client account follows)
    "Failed to send Telegram follow notification: ") as Htl.
  destruct (webhook.channel_block (webhook.enableDiscord m) _ _ _) as [ms1 log1].
  destruct (webhook.channel_block (webhook.enableTelegram m) _ _ _) as [ms2 log2].
  simpl in *. subst. rewrite omap_app. f_equal.
  - destruct (webhook.enableDiscord m), (webhook.discord m) as [d|]; try done.
    unfold webhook.Discord_notify. case_bool_decide; [done|]. simpl.
    by destruct (post _).
  - destruct (webhook.enableTelegram m), (webhook.telegram m) as [t|]; try done.
    unfold webhook.Telegram_notify. destruct (_ || _); [done|]. simpl.
    by destruct (post _).
Qed.

Lemma notification_caps_entries_witness :
  ∃ msg, webhook.msg_count msg = 30%nat
         ∧ (length (webhook.msg_fields msg) ≤ 25)%nat.
Proof.
  exists (webhook.message webhook.Discord EventTypeFollow examples.client
            examples.accountY (replicate 30 "v")).
  destruct (notification_caps_entries
              (webhook.NewNotificationManager "https://discord.example/hook"
                 "token" "chat" true true)
              (λ _, None) examples.client examples.accountY (replicate 30 "v")
              (webhook.message webhook.Discord EventTypeFollow examples.client
                 examples.accountY (replicate 30 "v")))
    as (Hcount & _ & Hlen & _).
  - left.
  - split; [exact Hcount|exact Hlen].
Defined.

Lemma sendNotifications_gated_witness :
  (length (ui.sendNotifications examples.env examples.accountY ["v2"] []) ≤ 4)%nat
  ∧ ui.EnableFollowNotifications (ui.config examples.env) = true.
Proof.
  destruct (sendNotifications_gated examples.env examples.accountY ["v2"] [])
    as [Hlen Hmsg].
  split; [exact Hlen|].
  apply (Hmsg (webhook.message webhook.Discord EventTypeFollow examples.client
                 examples.accountY ["v2"])).
  left.
Defined.

(** ** The terminal model *)

Section update_facts.
Variable textInput_Update : bool → string → ui.Msg → string.
Variable spinner_Update : ui.Msg → bool.

Lemma Update_tail_cmds msg m cmds c :
  c ∈ (ui.Update_tail textInput_Update msg m cmds).2 → c ∈ cmds ∨ c = ui.TextInputCmd.
Proof.
  unfold ui.Update_tail. destruct (ui.mode m); simpl; try tauto.
  all: rewrite elem_of_app, list_elem_of_singleton; tauto.
Qed.

Lemma Update_tail_fields msg m cmds :
  ui.mode (ui.Update_tail textInput_Update msg m cmds).1 = ui.mode m
  ∧ ui.error_ (ui.Update_tail textInput_Update msg m cmds).1 = ui.error_ m
  ∧ ui.lastCheckTime (ui.Update_tail textInput_Update msg m cmds).1 = ui.lastCheckTime m
  ∧ ui.checkInterval (ui.Update_tail textInput_Update msg m cmds).1 = ui.checkInterval m
  ∧ ui.accounts (ui.Update_tail textInput_Update msg m cmds).1 = ui.accounts m.
Proof. unfold ui.Update_tail. by destruct (ui.mode m) eqn:Hm; simpl; rewrite ?Hm. Qed.

Lemma Update_key now key m :
  (ui.CheckAccountsCmd ∉ (ui.Update textInput_Update spinner_Update now (ui.KeyMsg key) m).2)
  ∧ ui.lastCheckTime (ui.Update textInput_Update spinner_Update now (ui.KeyMsg key) m).1
    = ui.lastCheckTime m
  ∧ ui.checkInterval (ui.Update textInput_Update spinner_Update now (ui.KeyMsg key) m).1
    = ui.checkInterval m.
Proof.
  unfold ui.Update, ui.Update_tail.
  destruct (ui.mode m) eqn:Hmode; repeat case_bool_decide; simpl;
    rewrite ?Hmode; simpl; (split; [|done]);
    intros Hin;
    repeat (apply elem_of_cons in Hin as [Hin|Hin]; [discriminate Hin|]);
    by apply elem_of_nil in Hin.
Qed.

Lemma Update_timer now msg m :
  ui.checkInterval (ui.Update textInput_Update spinner_Update now msg m).1
    = ui.checkInterval m
  ∧ if bool_decide (ui.CheckAccountsCmd
                    ∈ (ui.Update textInput_Update spinner_Update now msg m).2)
    then msg = ui.checkTimerMsg
         ∧ ui.lastCheckTime m + ui.checkInterval m ≤ now
         ∧ ui.lastCheckTime (ui.Update textInput_Update spinner_Update now msg m).1 = now
    else ui.lastCheckTime (ui.Update textInput_Update spinner_Update now msg m).1
         = ui.lastCheckTime m.
Proof.
  destruct msg as [key| | |e|].
  - destruct (Update_key now key m) as (Hnot & Hl & Hi).
    split; [done|]. by rewrite bool_decide_eq_false_2.
  - unfold ui.Update. case_bool_decide as Hdue.
    + destruct (Update_tail_fields ui.checkTimerMsg (ui.set_lastCheckTime now m)
                  [ui.CheckAccountsCmd; ui.TickCheckTimer]) as (_ & _ & Hl & Hi & _).
      split; [done|]. rewrite bool_decide_eq_true_2.
      * split; [done|]. split; [lia|done].
      * unfold ui.Update_tail. destruct (ui.mode _); simpl; set_solver.
    + destruct (Update_tail_fields ui.checkTimerMsg m [ui.TickCheckTimer])
        as (_ & _ & Hl & Hi & _).
      split; [done|]. rewrite bool_decide_eq_false_2; [done|].
      intros [Hin|Hin]%Update_tail_cmds; [|done].
      by apply list_elem_of_singleton in Hin.
  - unfold ui.Update.
    destruct (Update_tail_fields ui.tickMsg (ui.set_uptime (now - ui.startTime m) m)
                [ui.TickUptime]) as (_ & _ & Hl & Hi & _).
    split; [done|]. rewrite bool_decide_eq_false_2; [done|].
    intros [Hin|Hin]%Update_tail_cmds; [|done].
    by apply list_elem_of_singleton in Hin.
  - by simpl.
  - unfold ui.Update.
    destruct (Update_tail_fields ui.otherMsg m
                (if spinner_Update ui.otherMsg then [ui.SpinnerCmd] else []))
      as (_ & _ & Hl & Hi & _).
    split; [done|]. rewrite bool_decide_eq_false_2; [done|].
    intros [Hin|Hin]%Update_tail_cmds; [|done].
    destruct (spinner_Update _); [by apply list_elem_of_singleton in Hin|].
    by apply elem_of_nil in Hin.
Qed.

(** X25. [Update] answers with the quit command only to the keys "q" and
    "ctrl+c" in normal mode: no key quits the program while an account name
    is being typed or the list is shown, and no other message ever does. *)
Theorem Update_quits_only_in_normal_mode (now : Z) (msg : ui.Msg) (m : ui.Model) :
  ui.Quit ∈ (ui.Update textInput_Update spinner_Update now msg m).2 →
  ui.mode m = ui.ModeNormal ∧ (msg = ui.KeyMsg "q" ∨ msg = ui.KeyMsg "ctrl+c").
Proof.
  unfold ui.Update. destruct msg as [key| | |e|]; simpl.
  - destruct (ui.mode m); repeat case_bool_decide; simpl; subst;
      try (intros [Hin|Hin]%Update_tail_cmds; [by apply elem_of_nil in Hin|done]);
      try (intros Hin%list_elem_of_singleton; done);
      try (by intros ?%elem_of_nil);
      intros _; split; try done; naive_solver.
  - case_bool_decide; intros [Hin|Hin]%Update_tail_cmds; try done;
      repeat (apply elem_of_cons in Hin as [Hin|Hin]; [done|]);
      by apply elem_of_nil in Hin.
  - intros [Hin|Hin]%Update_tail_cmds; [|done].
    by apply list_elem_of_singleton in Hin.
  - by intros ?%elem_of_nil.
  - intros [Hin|Hin]%Update_tail_cmds; [|done].
    destruct (spinner_Update _); [by apply list_elem_of_singleton in Hin|].
    by apply elem_of_nil in Hin.
Qed.

(** X26. The mode changes on key presses only: timer, uptime and other
    messages leave the mode and the cached accounts as they are, and an
    error message only sets the error.  The key "esc" leads from every other
    mode back to normal mode and clears the error. *)
Theorem Update_modes (now : Z) (msg : ui.Msg) (m : ui.Model) :
  ((∀ key, msg ≠ ui.KeyMsg key) →
   ui.mode (ui.Update textInput_Update spinner_Update now msg m).1 = ui.mode m
   ∧ ui.accounts (ui.Update textInput_Update spinner_Update now msg m).1
     = ui.accounts m)
  ∧ (ui.mode m ≠ ui.ModeNormal →
     ui.mode (ui.Update textInput_Update spinner_Update now (ui.KeyMsg "esc") m).1
       = ui.ModeNormal
     ∧ ui.error_ (ui.Update textInput_Update spinner_Update now (ui.KeyMsg "esc") m).1
       = None
     ∧ (ui.Update textInput_Update spinner_Update now (ui.KeyMsg "esc") m).2 = []).
Proof.
  split.
  - intros Hkey. unfold ui.Update. destruct msg as [key| | |e|].
    + by destruct (Hkey key).
    + case_bool_decide.
      * by destruct (Update_tail_fields ui.checkTimerMsg (ui.set_lastCheckTime now m)
                       [ui.CheckAccountsCmd; ui.TickCheckTimer]) as (? & _ & _ & _ & ?).
      * by destruct (Update_tail_fields ui.checkTimerMsg m [ui.TickCheckTimer])
          as (? & _ & _ & _ & ?).
    + by destruct (Update_tail_fields ui.tickMsg
                     (ui.set_uptime (now - ui.startTime m) m) [ui.TickUptime])
        as (? & _ & _ & _ & ?).
    + done.
    + by destruct (Update_tail_fields ui.otherMsg m
                     (if spinner_Update ui.otherMsg then [ui.SpinnerCmd] else []))
        as (? & _ & _ & _ & ?).
  - intros Hmode. unfold ui.Update. by destruct (ui.mode m).
Qed.

Lemma spaced_mono d t0 t1 l : t0 ≤ t1 → ui.spaced d t1 l → ui.spaced d t0 l.
Proof. destruct l as [|t l]; [done|]. simpl. intros ? [??]. split; [lia|done]. Qed.

(** X27. Checks are launched at least one check interval apart: over any
    run of messages, handled at any clock readings, the first launch is at
    least [checkInterval] after [lastCheckTime] and each further launch at
    least [checkInterval] after the one before. *)
Theorem checks_are_spaced (m : ui.Model) (msgs : list (Z * ui.Msg)) :
  ui.spaced (ui.checkInterval m) (ui.lastCheckTime m)
    (ui.run textInput_Update spinner_Update m msgs).2.
Proof.
  revert m. induction msgs as [|[now msg] msgs IH]; intros m; [done|]. simpl.
  destruct (ui.Update textInput_Update spinner_Update now msg m) as [m1 cmds] eqn:HU.
  pose proof (Update_timer now msg m) as [Hint Hlaunch]. rewrite HU in Hint, Hlaunch.
  simpl in *. specialize (IH m1).
  destruct (ui.run textInput_Update spinner_Update m1 msgs) as [m2 launches].
  simpl in *. rewrite Hint in IH.
  destruct (bool_decide (ui.CheckAccountsCmd ∈ cmds)).
  - destruct Hlaunch as (_ & Hdue & Hlast). simpl. split; [done|]. by rewrite <- Hlast.
  - by rewrite <- Hlaunch.
Qed.

End update_facts.

Lemma Update_quits_only_in_normal_mode_witness :
  ui.Quit ∈ (ui.Update examples.textInput_Update examples.spinner_Update 5
               (ui.KeyMsg "q") (examples.model ui.ModeNormal)).2
  ∧ ui.mode (examples.model ui.ModeNormal) = ui.ModeNormal.
Proof.
  assert (Hq : ui.Quit ∈ (ui.Update examples.textInput_Update
                            examples.spinner_Update 5 (ui.KeyMsg "q")
                            (examples.model ui.ModeNormal)).2).
  { simpl. left. }
  split; [exact Hq|].
  apply (Update_quits_only_in_normal_mode examples.textInput_Update
           examples.spinner_Update 5 (ui.KeyMsg "q") (examples.model ui.ModeNormal) Hq).
Defined.

Lemma Update_modes_witness :
  ui.mode (ui.Update examples.textInput_Update examples.spinner_Update 5
             ui.checkTimerMsg (examples.model ui.ModeAddAccount)).1
  = ui.ModeAddAccount
  ∧ ui.mode (ui.Update examples.textInput_Update examples.spinner_Update 5
               (ui.KeyMsg "esc") (examples.model ui.ModeAddAccount)).1
    = ui.ModeNormal.
Proof.
  destruct (Update_modes examples.textInput_Update examples.spinner_Update 5
              ui.checkTimerMsg (examples.model ui.ModeAddAccount)) as [Hother Hesc].
  split.
  - apply Hother. intros key Heq. discriminate Heq.
  - apply Hesc. simpl. intros Heq. discriminate Heq.
Defined.

(** ** formatDuration *)

(** X28. For a duration that rounds to [k] whole seconds, [k] not negative,
    [formatDuration] prints the hours [k / 3600], the minutes and the
    seconds, both below 60 and two digits wide behind a larger unit; the
    hours are left out when zero, and the minutes too when both are. *)
Theorem formatDuration_fields (Round : Z → Z) (d k : Z) :
  Round d = k * ui.Second →
  0 ≤ k →
  0 ≤ k `mod` 3600 / 60 < 60 ∧ 0 ≤ k `mod` 60 < 60
  ∧ k = k / 3600 * 3600 + k `mod` 3600 / 60 * 60 + k `mod` 60
  ∧ ui.formatDuration Round d
    = if bool_decide (0 < k / 3600)
      then pretty (k / 3600) +:+ "h" +:+ ui.pad2 (k `mod` 3600 / 60) +:+ "m"
           +:+ ui.pad2 (k `mod` 60) +:+ "s"
      else if bool_decide (0 < k `mod` 3600 / 60)
      then pretty (k `mod` 3600 / 60) +:+ "m" +:+ ui.pad2 (k `mod` 60) +:+ "s"
      else pretty (k `mod` 60) +:+ "s".
Proof.
  intros HR Hk.
  assert (Hm : 0 ≤ k `mod` 3600 < 3600) by (apply Z.mod_pos_bound; lia).
  assert (Hs : 0 ≤ k `mod` 60 < 60) by (apply Z.mod_pos_bound; lia).
  assert (Hmm : 0 ≤ k `mod` 3600 / 60 < 60).
  { split; [apply Z.div_pos; lia|apply Z.div_lt_upper_bound; lia]. }
  assert (Hsplit : k `mod` 3600 = k `mod` 3600 / 60 * 60 + k `mod` 60).
  { rewrite (Z.div_mod (k `mod` 3600) 60) at 1 by lia.
    rewrite (Z.mod_mod_divide k 3600 60) by (by exists 60). lia. }
  split; [done|]. split; [done|]. split.
  { rewrite (Z.div_mod k 3600) at 1 by lia. lia. }
  unfold ui.formatDuration. rewrite HR.
  assert (Hh : (k * ui.Second) ÷ ui.Hour = k / 3600).
  { rewrite Z.quot_div_nonneg by (unfold ui.Hour, ui.Minute, ui.Second; lia).
    unfold ui.Hour, ui.Minute, ui.Second.
    replace (60 * (60 * 1000000000)) with (3600 * 1000000000) by lia.
    rewrite Z.div_mul_cancel_r by lia. done. }
  rewrite Hh.
  assert (Hrem1 : k * ui.Second - k / 3600 * ui.Hour = k `mod` 3600 * ui.Second).
  { unfold ui.Hour, ui.Minute, ui.Second. rewrite (Z.mod_eq k 3600) by lia. lia. }
  rewrite Hrem1.
  assert (Hmin : (k `mod` 3600 * ui.Second) ÷ ui.Minute = k `mod` 3600 / 60).
  { rewrite Z.quot_div_nonneg by (unfold ui.Minute, ui.Second; lia).
    unfold ui.Minute, ui.Second. rewrite Z.div_mul_cancel_r by lia. done. }
  rewrite Hmin.
  assert (Hrem2 : k `mod` 3600 * ui.Second - k `mod` 3600 / 60 * ui.Minute
                  = k `mod` 60 * ui.Second).
  { unfold ui.Minute, ui.Second. lia. }
  rewrite Hrem2.
  assert (Hsec : (k `mod` 60 * ui.Second) ÷ ui.Second = k `mod` 60).
  { rewrite Z.quot_div_nonneg by (unfold ui.Second; lia).
    apply Z.div_mul. unfold ui.Second. lia. }
  by rewrite Hsec.
Qed.

Lemma formatDuration_fields_witness :
  ui.formatDuration (λ d, d) (3725 * ui.Second) = "1h02m05s".
Proof.
  destruct (formatDuration_fields (λ d, d) (3725 * ui.Second) 3725)
    as (_ & _ & _ & Hfmt); [reflexivity|lia|].
  rewrite Hfmt. by vm_compute.
Defined.
